(** * TRX.js: the thread-handle life cycle of [src/index.ts]

    A shallow embedding of [Thread.spawn] and of the handle it returns
    ([rx.onMessage], [rx.recv], [join], [interrupt], [id]).  The closure
    variables of [spawn] and the platform objects the closure holds
    (the worker, the two message ports, the blob URL, the timers and the
    promises it creates) form one explicit state; every function of the
    source is a transformer of that state, and the event loop is a list
    of events applied in order. *)

From Stdlib Require Import ZArith List Bool Lia.
From stdpp Require Import base tactics option list gmap strings pretty.

(** ** JavaScript values that cross a message port *)

#[warnings="-register-all"]
Inductive value : Type :=
  | VUndefined
  | VNull
  | VBool (b : bool)
  | VNumber (n : Z)
  | VString (s : string)
  | VObject (fields : list (string * value)).

(** ToBoolean. *)
Definition truthy (v : value) : bool :=
  match v with
  | VUndefined | VNull => false
  | VBool b => b
  | VNumber n => negb (n =? 0)%Z
  | VString s => negb (String.eqb s EmptyString)
  | VObject _ => true
  end.

Fixpoint field (k : string) (fs : list (string * value)) : value :=
  match fs with
  | [] => VUndefined
  | (k', v) :: fs => if String.eqb k k' then v else field k fs
  end.

(** Property read [v.k]; only used behind a truthiness guard on [v]. *)
Definition prop (k : string) (v : value) : value :=
  match v with
  | VObject fs => field k fs
  | _ => VUndefined
  end.

(** [v === s] for a string literal [s]. *)
Definition strict_eq_string (v : value) (s : string) : bool :=
  match v with
  | VString s' => String.eqb s' s
  | _ => false
  end.

(** [a || b]. *)
Definition js_or (a b : value) : value := if truthy a then a else b.

(** [Number::toString] for a number whose value is an integer.  A number
    is a double: the integer [z] stands for the double nearest to it
    ([round53]: 53 significant bits, ties to even).  The digits are the
    shortest decimal [s * 10^e] that reads back as that double, the
    closest one when several do; up to 21 digits they are written out,
    followed by zeros, beyond that in exponent form. *)
Definition round53 (y : Z) : Z :=
  (let b := Z.log2 y in
   if b <? 53 then y
   else
     let sh := b - 52 in
     let q := Z.shiftr y sh in
     let r := Z.land y (Z.ones sh) in
     let half := Z.shiftl 1 (sh - 1) in
     let q' := if (half <? r) || ((r =? half) && Z.odd q) then q + 1 else q in
     Z.shiftl q' sh)%Z.

Definition digit_candidates (x k e : Z) : list (Z * Z) :=
  if (e <? 0)%Z then []
  else
    let s0 := (x / 10 ^ e)%Z in
    List.filter
      (λ se, (10 ^ (k - 1) <=? fst se)%Z && (fst se <? 10 ^ k)%Z
             && (round53 (fst se * 10 ^ snd se) =? x)%Z)
      [(s0, e); ((s0 + 1)%Z, e)].

Definition closer (x : Z) (a b : Z * Z) : Z * Z :=
  let da := Z.abs (fst a * 10 ^ snd a - x) in
  let db := Z.abs (fst b * 10 ^ snd b - x) in
  if (da <? db)%Z then a
  else if (db <? da)%Z then b
  else if Z.even (fst a) then a else b.

Fixpoint shortest_digits (x d : Z) (ks : list Z) : option (Z * Z) :=
  match ks with
  | [] => None
  | k :: ks =>
      match digit_candidates x k (d - k) ++ digit_candidates x k (d + 1 - k) with
      | [] => shortest_digits x d ks
      | c :: cs => Some (fold_left (closer x) cs c)
      end
  end.

Definition zeros (e : Z) : string :=
  String.concat EmptyString (repeat "0"%string (Z.to_nat e)).

Definition render (s e : Z) : string :=
  let ds := pretty s in
  let n := (Z.of_nat (String.length ds) + e)%Z in
  if (n <=? 21)%Z then ds +:+ zeros e
  else
    match ds with
    | String d EmptyString =>
        String d EmptyString +:+ "e+" +:+ pretty (n - 1)%Z
    | String d rest =>
        String d EmptyString +:+ "." +:+ rest +:+ "e+" +:+ pretty (n - 1)%Z
    | EmptyString => ds
    end.

Definition number_to_string (z : Z) : string :=
  if (z =? 0)%Z then "0"
  else
    let sign := if (z <? 0)%Z then "-"%string else EmptyString in
    let x := round53 (Z.abs z) in
    if (2 ^ 1024 <=? x)%Z then sign +:+ "Infinity"
    else
      let d := Z.of_nat (String.length (pretty x)) in
      match shortest_digits x d (map Z.of_nat (seq 1 17)) with
      | Some (s, e) => sign +:+ render s e
      | None => sign +:+ pretty x
      end.

(** ToString, as performed by a template literal. *)
Definition to_string (v : value) : string :=
  match v with
  | VUndefined => "undefined"
  | VNull => "null"
  | VBool true => "true"
  | VBool false => "false"
  | VNumber n => number_to_string n
  | VString s => s
  | VObject _ => "[object Object]"
  end.

(** ** The job and the worker script *)

(** A thrown [Error]: its [message] and its [stack]. *)
Record JsError := { message : string; stack : string }.

Inductive outcome :=
  | Returns
  | Throws (error : JsError)
  | Hangs.

(** A message the worker posts: on [port], which is what [transmit.send]
    does, or on [completionPort]. *)
Inductive post :=
  | PortPost (data : value)
  | CompletionPost (data : value).

Definition completion_posts (ps : list post) : list value :=
  omap (λ p, match p with CompletionPost data => Some data | _ => None end) ps.

Definition port_posts (ps : list post) : list value :=
  omap (λ p, match p with PortPost data => Some data | _ => None end) ps.

(** What [functionToRun] does: the posts its body makes, in order, and
    then how it ends.  Its text is spliced into the [self.onmessage]
    handler, where [port] and [completionPort] are both in scope, so
    besides calling [transmit.send] it can post on [completionPort]
    itself. *)
Record job := {
  body : list post;
  finish : outcome;
}.

(** The payloads a job passes to [transmit.send], and those it posts on
    [completionPort] itself. *)
Definition sends (functionToRun : job) : list value :=
  port_posts (body functionToRun).

Definition completions (functionToRun : job) : list value :=
  completion_posts (body functionToRun).

Definition thread_complete : string := "__thread_complete__".

(** [workerCode], the [self.onmessage] handler of the generated script:
    the posts it makes on [port] and on [completionPort], in order. *)
Definition workerCode (functionToRun : job) : list post :=
  body functionToRun ++
  match finish functionToRun with
  | Returns =>
      [CompletionPost (VObject [("type", VString thread_complete);
                                ("code", VNumber 0)])]
  | Throws error =>
      [PortPost (VObject [("error", VString (message error));
                          ("stack", VString (stack error))]);
       CompletionPost (VObject [("type", VString thread_complete);
                                ("code", VNumber 1);
                                ("error", VString (message error))])]
  | Hangs => []
  end.

(** ** The id allocator *)

Definition mainThreadId : Z := 0.

(** [Thread.id] of the module, as called from the spawning context. *)
Definition getThreadId : Z := mainThreadId.

(** The initial value of the module variable [threadIdCounter].  It is a
    JavaScript number holding an integer, modelled by [Z]. *)
Definition threadIdCounter_init : Z := 1.

(** ** The handle state *)

Inductive promise :=
  | Pending
  | Resolved (v : value)
  | Rejected (e : string).

(** An [onMessage] callback is identified by a label; calling it is
    recorded in [calls]. *)
Definition callback := nat.

(** The [let] variables of [spawn]. *)
Record Vars := {
  interrupted : bool;
  completed : bool;
  completionCode : value;
  completionError : option string;
  completionResolve : option nat;
  completionReject : option nat;
  timeoutId : option nat;
}.

(** [worker], [completionPort1], [workerUrl] and the timers of
    [setTimeout].  [script] is what the code behind [workerUrl] does once
    it is handed the ports.  A timer holds what its closure captured:
    [timeout] and the [reject] of the promise being built. *)
Record Host := {
  script : list post;
  terminate_calls : nat;
  error_listener : bool;
  completion_listener : bool;
  close_calls : nat;
  revoke_calls : nat;
  timers : gmap nat (Z * nat);
  next_timer : nat;
}.

(** [messagePort1]: its message queue, whether the queue is enabled, the
    [onmessage] slot and the listeners added by [recv] (each named by the
    promise it resolves). *)
Record MessagePort := {
  started : bool;
  queue : list value;
  onmessage : option callback;
  listeners : list nat;
}.

Record state := {
  workerThreadId : Z;
  vars : Vars;
  host : Host;
  messagePort1 : MessagePort;
  joins : list promise;
  recvs : list promise;
  calls : list (callback * value);
}.

Definition with_vars (f : Vars → Vars) (s : state) : state :=
  {| workerThreadId := workerThreadId s; vars := f (vars s); host := host s;
     messagePort1 := messagePort1 s; joins := joins s; recvs := recvs s;
     calls := calls s |}.

Definition with_host (f : Host → Host) (s : state) : state :=
  {| workerThreadId := workerThreadId s; vars := vars s; host := f (host s);
     messagePort1 := messagePort1 s; joins := joins s; recvs := recvs s;
     calls := calls s |}.

Definition with_port (f : MessagePort → MessagePort) (s : state) : state :=
  {| workerThreadId := workerThreadId s; vars := vars s; host := host s;
     messagePort1 := f (messagePort1 s); joins := joins s; recvs := recvs s;
     calls := calls s |}.

Definition with_joins (f : list promise → list promise) (s : state) : state :=
  {| workerThreadId := workerThreadId s; vars := vars s; host := host s;
     messagePort1 := messagePort1 s; joins := f (joins s); recvs := recvs s;
     calls := calls s |}.

Definition with_recvs (f : list promise → list promise) (s : state) : state :=
  {| workerThreadId := workerThreadId s; vars := vars s; host := host s;
     messagePort1 := messagePort1 s; joins := joins s; recvs := f (recvs s);
     calls := calls s |}.

Definition with_calls (f : list (callback * value) → list (callback * value))
    (s : state) : state :=
  {| workerThreadId := workerThreadId s; vars := vars s; host := host s;
     messagePort1 := messagePort1 s; joins := joins s; recvs := recvs s;
     calls := f (calls s) |}.

(** *** Assignments to the closure variables *)

Definition set_interrupted (b : bool) : state → state :=
  with_vars (λ v,
    {| interrupted := b; completed := completed v;
       completionCode := completionCode v; completionError := completionError v;
       completionResolve := completionResolve v;
       completionReject := completionReject v; timeoutId := timeoutId v |}).

Definition set_completed (b : bool) : state → state :=
  with_vars (λ v,
    {| interrupted := interrupted v; completed := b;
       completionCode := completionCode v; completionError := completionError v;
       completionResolve := completionResolve v;
       completionReject := completionReject v; timeoutId := timeoutId v |}).

Definition set_completionCode (c : value) : state → state :=
  with_vars (λ v,
    {| interrupted := interrupted v; completed := completed v;
       completionCode := c; completionError := completionError v;
       completionResolve := completionResolve v;
       completionReject := completionReject v; timeoutId := timeoutId v |}).

Definition set_completionError (e : option string) : state → state :=
  with_vars (λ v,
    {| interrupted := interrupted v; completed := completed v;
       completionCode := completionCode v; completionError := e;
       completionResolve := completionResolve v;
       completionReject := completionReject v; timeoutId := timeoutId v |}).

Definition set_completionResolve (r : option nat) : state → state :=
  with_vars (λ v,
    {| interrupted := interrupted v; completed := completed v;
       completionCode := completionCode v; completionError := completionError v;
       completionResolve := r;
       completionReject := completionReject v; timeoutId := timeoutId v |}).

Definition set_completionReject (r : option nat) : state → state :=
  with_vars (λ v,
    {| interrupted := interrupted v; completed := completed v;
       completionCode := completionCode v; completionError := completionError v;
       completionResolve := completionResolve v;
       completionReject := r; timeoutId := timeoutId v |}).

Definition set_timeoutId (t : option nat) : state → state :=
  with_vars (λ v,
    {| interrupted := interrupted v; completed := completed v;
       completionCode := completionCode v; completionError := completionError v;
       completionResolve := completionResolve v;
       completionReject := completionReject v; timeoutId := t |}).

(** *** Calls on the platform objects *)

(** [worker.terminate()] *)
Definition worker_terminate : state → state :=
  with_host (λ h,
    {| script := script h;
       terminate_calls := S (terminate_calls h);
       error_listener := error_listener h;
       completion_listener := completion_listener h;
       close_calls := close_calls h; revoke_calls := revoke_calls h;
       timers := timers h; next_timer := next_timer h |}).

(** [worker.removeEventListener("error", errorHandler)] *)
Definition worker_removeErrorListener : state → state :=
  with_host (λ h,
    {| script := script h;
       terminate_calls := terminate_calls h;
       error_listener := false;
       completion_listener := completion_listener h;
       close_calls := close_calls h; revoke_calls := revoke_calls h;
       timers := timers h; next_timer := next_timer h |}).

(** [completionPort1.removeEventListener("message", completionHandler)] *)
Definition completionPort1_removeListener : state → state :=
  with_host (λ h,
    {| script := script h;
       terminate_calls := terminate_calls h;
       error_listener := error_listener h;
       completion_listener := false;
       close_calls := close_calls h; revoke_calls := revoke_calls h;
       timers := timers h; next_timer := next_timer h |}).

(** [completionPort1.close()] *)
Definition completionPort1_close : state → state :=
  with_host (λ h,
    {| script := script h;
       terminate_calls := terminate_calls h;
       error_listener := error_listener h;
       completion_listener := completion_listener h;
       close_calls := S (close_calls h); revoke_calls := revoke_calls h;
       timers := timers h; next_timer := next_timer h |}).

(** [URL.revokeObjectURL(workerUrl)] *)
Definition revokeObjectURL : state → state :=
  with_host (λ h,
    {| script := script h;
       terminate_calls := terminate_calls h;
       error_listener := error_listener h;
       completion_listener := completion_listener h;
       close_calls := close_calls h; revoke_calls := S (revoke_calls h);
       timers := timers h; next_timer := next_timer h |}).

(** [clearTimeout(t)] *)
Definition clearTimeout (t : nat) : state → state :=
  with_host (λ h,
    {| script := script h;
       terminate_calls := terminate_calls h;
       error_listener := error_listener h;
       completion_listener := completion_listener h;
       close_calls := close_calls h; revoke_calls := revoke_calls h;
       timers := delete t (timers h); next_timer := next_timer h |}).

(** [setTimeout(closure, timeout)], the closure having captured [timeout]
    and the [reject] of promise [p]; the new timer id is [next_timer]. *)
Definition setTimeout (timeout : Z) (p : nat) : state → state :=
  with_host (λ h,
    {| script := script h;
       terminate_calls := terminate_calls h;
       error_listener := error_listener h;
       completion_listener := completion_listener h;
       close_calls := close_calls h; revoke_calls := revoke_calls h;
       timers := <[next_timer h := (timeout, p)]> (timers h);
       next_timer := S (next_timer h) |}).

(** Settling a promise: a promise that is already settled ignores it. *)
Definition settle (p : nat) (r : promise) (ps : list promise) : list promise :=
  match ps !! p with
  | Some Pending => <[p := r]> ps
  | _ => ps
  end.

Definition resolve (p : nat) (v : value) : state → state :=
  with_joins (settle p (Resolved v)).

Definition reject (p : nat) (e : string) : state → state :=
  with_joins (settle p (Rejected e)).

(** *** Calls on [messagePort1] *)

(** [messagePort1.start()] *)
Definition messagePort1_start : state → state :=
  with_port (λ m,
    {| started := true; queue := queue m; onmessage := onmessage m;
       listeners := listeners m |}).

(** [messagePort1.onmessage = handler], the handler wrapping [cb] *)
Definition messagePort1_set_onmessage (cb : callback) : state → state :=
  with_port (λ m,
    {| started := started m; queue := queue m; onmessage := Some cb;
       listeners := listeners m |}).

(** [messagePort1.addEventListener("message", handler)], the handler being
    the one of the [recv] promise [p] *)
Definition messagePort1_addListener (p : nat) : state → state :=
  with_port (λ m,
    {| started := started m; queue := queue m; onmessage := onmessage m;
       listeners := listeners m ++ [p] |}).

Definition messagePort1_set_listeners (ls : list nat) : state → state :=
  with_port (λ m,
    {| started := started m; queue := queue m; onmessage := onmessage m;
       listeners := ls |}).

Definition messagePort1_set_queue (q : list value) : state → state :=
  with_port (λ m,
    {| started := started m; queue := q; onmessage := onmessage m;
       listeners := listeners m |}).

(** ** The functions of [spawn] *)

Definition cleanup (s : state) : state :=
  let s := completionPort1_close s in
  revokeObjectURL s.

Definition errorHandler (event_message : string) (s : state) : state :=
  if negb (completed (vars s)) then
    let s := set_completed true s in
    let s := worker_removeErrorListener s in
    let s := completionPort1_removeListener s in
    let s := match timeoutId (vars s) with
             | Some t => clearTimeout t s
             | None => s
             end in
    let e := "Worker error: " +:+ event_message in
    let s := set_completionError (Some e) s in
    let s := worker_terminate s in
    let s := cleanup s in
    match completionReject (vars s) with
    | Some p => reject p e s
    | None => s
    end
  else s.

Definition completionHandler (data : value) (s : state) : state :=
  if truthy data && strict_eq_string (prop "type" data) thread_complete
     && negb (completed (vars s)) then
    let s := set_completed true s in
    let s := worker_removeErrorListener s in
    let s := completionPort1_removeListener s in
    let s := match timeoutId (vars s) with
             | Some t => clearTimeout t s
             | None => s
             end in
    if truthy (prop "error" data) then
      let e := "Thread error: " +:+ to_string (prop "error" data) in
      let s := set_completionError (Some e) s in
      let s := cleanup s in
      match completionReject (vars s) with
      | Some p => reject p e s
      | None => s
      end
    else
      let s := set_completionCode (js_or (prop "code" data) (VNumber 0)) s in
      let s := cleanup s in
      match completionResolve (vars s) with
      | Some p => resolve p (completionCode (vars s)) s
      | None => s
      end
  else s.

(** [rx.onMessage(callback)] *)
Definition onMessage (cb : callback) (s : state) : state :=
  let s := messagePort1_set_onmessage cb s in
  messagePort1_start s.

(** [rx.recv()]: the state after the call and the promise it returns,
    named by its position in [recvs]. *)
Definition recv (s : state) : state * nat :=
  let p := length (recvs s) in
  let s := with_recvs (λ ps, ps ++ [Pending]) s in
  let s := messagePort1_addListener p s in
  (messagePort1_start s, p).

(** The function passed to [setTimeout] by [join]. *)
Definition timeoutCallback (timeout : Z) (p : nat) (s : state) : state :=
  if negb (completed (vars s)) then
    let s := set_completed true s in
    let s := worker_removeErrorListener s in
    let s := completionPort1_removeListener s in
    let s := worker_terminate s in
    let s := cleanup s in
    let timeoutError := "Thread join timed out after " +:+ number_to_string timeout +:+ "ms" in
    let s := set_completionError (Some timeoutError) s in
    reject p timeoutError s
  else s.

(** [join(timeout)]: the state after the call and the promise it returns,
    named by its position in [joins].  [None] is an [undefined] timeout. *)
Definition join (timeout : option Z) (s : state) : state * nat :=
  let p := length (joins s) in
  let s := with_joins (λ ps, ps ++ [Pending]) s in
  if interrupted (vars s) then (resolve p (VNumber 1) s, p)
  else if completed (vars s) then
    match completionError (vars s) with
    | Some e => (reject p e s, p)
    | None => (resolve p (completionCode (vars s)) s, p)
    end
  else
    let s := set_completionResolve (Some p) s in
    let s := set_completionReject (Some p) s in
    match timeout with
    | Some t =>
        let id := next_timer (host s) in
        let s := setTimeout t p s in
        (set_timeoutId (Some id) s, p)
    | None => (s, p)
    end.

Definition interrupt (s : state) : state :=
  let s := set_interrupted true s in
  let s := set_completed true s in
  let s := worker_removeErrorListener s in
  let s := completionPort1_removeListener s in
  let s := worker_terminate s in
  cleanup s.

Definition id (s : state) : Z := workerThreadId s.

(** [Thread.spawn]: the handle, as the state its closure starts from, and
    the module variable [threadIdCounter] after the [++].  Both listeners
    are attached and [completionPort1] is started before [spawn] returns. *)
Definition spawn (functionToRun : job) (threadIdCounter : Z) : state * Z :=
  ({| workerThreadId := threadIdCounter;
      vars := {| interrupted := false; completed := false;
                 completionCode := VNumber 0; completionError := None;
                 completionResolve := None; completionReject := None;
                 timeoutId := None |};
      host := {| script := workerCode functionToRun;
                 terminate_calls := 0; error_listener := true;
                 completion_listener := true; close_calls := 0;
                 revoke_calls := 0; timers := ∅; next_timer := 0 |};
      messagePort1 := {| started := false; queue := []; onmessage := None;
                         listeners := [] |};
      joins := []; recvs := []; calls := [] |},
   (threadIdCounter + 1)%Z).

(** One call of [spawn] per job of the list, one after the other: the
    handles in spawn order and the final counter. *)
Fixpoint spawn_many (jobs : list job) (threadIdCounter : Z) : list state * Z :=
  match jobs with
  | [] => ([], threadIdCounter)
  | functionToRun :: jobs =>
      let '(h, c) := spawn functionToRun threadIdCounter in
      let '(hs, c') := spawn_many jobs c in
      (h :: hs, c')
  end.

(** ** The event loop *)

(** What can happen to a handle: a call of one of its methods by the
    owner, or a task of the event loop. *)
Inductive event :=
  | EJoin (timeout : option Z)
  | EInterrupt
  | ERecv
  | EOnMessage (cb : callback)
  | EPortMessage (data : value)      (* the worker posted [data] on [port] *)
  | EPortDispatch                    (* [messagePort1] dispatches its oldest message *)
  | ECompletionMessage (data : value) (* a message event on [completionPort1] *)
  | EWorkerError (event_message : string) (* an error event on [worker] *)
  | ETimerFire (t : nat).            (* the delay of timer [t] has elapsed *)

(** One message event on [messagePort1]: the [onmessage] handler and every
    listener added by a pending [recv] are invoked with it; each [recv]
    listener removes itself and resolves its promise. *)
Definition dispatch (data : value) (s : state) : state :=
  let s := match onmessage (messagePort1 s) with
           | Some cb => with_calls (λ l, l ++ [(cb, data)]) s
           | None => s
           end in
  let hs := listeners (messagePort1 s) in
  let s := messagePort1_set_listeners [] s in
  with_recvs (λ ps, foldr (λ p ps, settle p (Resolved data) ps) ps hs) s.

Definition step (e : event) (s : state) : state :=
  match e with
  | EJoin timeout => fst (join timeout s)
  | EInterrupt => interrupt s
  | ERecv => fst (recv s)
  | EOnMessage cb => onMessage cb s
  | EPortMessage data =>
      messagePort1_set_queue (queue (messagePort1 s) ++ [data]) s
  | EPortDispatch =>
      if started (messagePort1 s) then
        match queue (messagePort1 s) with
        | data :: q => dispatch data (messagePort1_set_queue q s)
        | [] => s
        end
      else s
  | ECompletionMessage data =>
      if completion_listener (host s) && (close_calls (host s) =? 0)
      then completionHandler data s else s
  | EWorkerError event_message =>
      if error_listener (host s) then errorHandler event_message s else s
  | ETimerFire t =>
      (* a timer fires once: it leaves the set of armed timers *)
      match timers (host s) !! t with
      | Some (timeout, p) => timeoutCallback timeout p (clearTimeout t s)
      | None => s
      end
  end.

Definition run (evs : list event) (s : state) : state :=
  fold_left (λ s e, step e s) evs s.

(** The events a worker's posts become on the owner's side. *)
Definition arrive (p : post) : list event :=
  match p with
  | PortPost data => [EPortMessage data]
  | CompletionPost data => [ECompletionMessage data]
  end.

(** The handle the first [spawn] of a program returns. *)
Definition first_handle (functionToRun : job) : state :=
  fst (spawn functionToRun threadIdCounter_init).

(** A job that sends the payloads [ms] through [transmit], posts
    nothing on [completionPort] and returns; the fresh handle of one that
    sends nothing. *)
Definition job_sends (ms : list value) : job :=
  {| body := map PortPost ms; finish := Returns |}.

Definition job_returns : job := job_sends [].

Definition handle0 : state := first_handle job_returns.

(** The payloads posted on [port] during a run of events. *)
Definition sent (evs : list event) : list value :=
  omap (λ e, match e with EPortMessage data => Some data | _ => None end) evs.

(** The states a handle can be in: those a list of events leads to from
    the state [spawn] returns. *)
Definition reachable (s : state) : Prop :=
  ∃ f c evs, s = run evs (fst (spawn f c)).

(** What a [join] on a handle that is no longer running settles with. *)
Definition stored_outcome (s : state) : promise :=
  if interrupted (vars s) then Resolved (VNumber 1)
  else match completionError (vars s) with
       | Some e => Rejected e
       | None => Resolved (completionCode (vars s))
       end.

(** The completion messages [completionHandler] acts on. *)
Definition is_complete (data : value) : bool :=
  truthy data && strict_eq_string (prop "type" data) thread_complete.

(** What the waiter of a running handle is settled with by such a message. *)
Definition completion_outcome (data : value) : promise :=
  if truthy (prop "error" data)
  then Rejected ("Thread error: " +:+ to_string (prop "error" data))
  else Resolved (js_or (prop "code" data) (VNumber 0)).

(** Events of the message channel only: they leave the life cycle alone. *)
Definition message_event (e : event) : bool :=
  match e with
  | ERecv | EOnMessage _ | EPortMessage _ | EPortDispatch => true
  | _ => false
  end.

Definition is_interrupt (e : event) : bool :=
  match e with EInterrupt => true | _ => false end.

Definition is_onMessage (e : event) : bool :=
  match e with EOnMessage _ => true | _ => false end.

(** How often each part of the teardown has run: [worker.terminate()],
    [completionPort1.close()] and [URL.revokeObjectURL(workerUrl)]. *)
Definition teardown_calls (s : state) : nat * nat * nat :=
  (terminate_calls (host s), close_calls (host s), revoke_calls (host s)).

(** The events a job causes on the owner's side, in the order of the
    worker's posts. *)
Definition worker_events (functionToRun : job) : list event :=
  flat_map arrive (workerCode functionToRun).

(** The two completion messages [workerCode] posts, and the diagnostic it
    posts on [port] for a thrown error. *)
Definition success_data : value :=
  VObject [("type", VString thread_complete); ("code", VNumber 0)].

Definition failure_data (error : JsError) : value :=
  VObject [("type", VString thread_complete); ("code", VNumber 1);
           ("error", VString (message error))].

Definition diagnostic (error : JsError) : value :=
  VObject [("error", VString (message error)); ("stack", VString (stack error))].

(** Pull-mode consumption one call at a time: [recv] is called only
    while no earlier [recv] is pending, and a message is dispatched only
    while a [recv] is pending. *)
Definition recv_ready (e : event) (s : state) : bool :=
  match e with
  | ERecv =>
      match listeners (messagePort1 s) with
      | [] => true
      | _ :: _ => false
      end
  | EPortDispatch =>
      if started (messagePort1 s) then
        match queue (messagePort1 s), listeners (messagePort1 s) with
        | _ :: _, [] => false
        | _, _ => true
        end
      else true
  | _ => true
  end.

Fixpoint one_at_a_time (evs : list event) (s : state) : bool :=
  match evs with
  | [] => true
  | e :: evs => recv_ready e s && one_at_a_time evs (step e s)
  end.

(** The state of pull-mode consumption after the worker has posted
    [posted]: the promises of the [recv] calls, in call order, hold the
    messages [ds] dispatched so far, one each, the last call may still
    be pending, and the rest of [posted] is in the queue. *)
Definition pull_inv (s : state) (posted : list value) : Prop :=
  ∃ ds,
    recvs s = map Resolved ds ++ map (λ _, Pending) (listeners (messagePort1 s)) ∧
    (listeners (messagePort1 s) = [] ∨ listeners (messagePort1 s) = [length ds]) ∧
    ds ++ queue (messagePort1 s) = posted.

(** The events of a run that come from the worker are posts of the
    script running [functionToRun]. *)
Definition posted_by (functionToRun : job) (e : event) : Prop :=
  match e with
  | ECompletionMessage data => In (CompletionPost data) (workerCode functionToRun)
  | EPortMessage data => In (PortPost data) (workerCode functionToRun)
  | _ => True
  end.

(** No [join] has resolved with anything but 0. *)
Definition exit_zero_inv (s : state) : Prop :=
  interrupted (vars s) = false ∧
  completionCode (vars s) = VNumber 0 ∧
  ∀ p v, joins s !! p = Some (Resolved v) → v = VNumber 0.

(** A handle that was interrupted is completed; a handle that is not
    completed still has both listeners attached, has run no teardown and
    has settled no [join]. *)
Record lifecycle_inv (s : state) : Prop := {
  inv_interrupted : interrupted (vars s) = true → completed (vars s) = true;
  inv_error_listener : completed (vars s) = false → error_listener (host s) = true;
  inv_completion_listener :
    completed (vars s) = false → completion_listener (host s) = true;
  inv_close : completed (vars s) = false → close_calls (host s) = 0;
  inv_revoke : completed (vars s) = false → revoke_calls (host s) = 0;
  inv_terminate : completed (vars s) = false → terminate_calls (host s) = 0;
  inv_pending : completed (vars s) = false → Forall (λ p, p = Pending) (joins s);
  inv_no_error : completed (vars s) = false → completionError (vars s) = None;
}.

Ltac unfold_handle :=
  unfold step, join, interrupt, recv, onMessage, dispatch, errorHandler,
    completionHandler, timeoutCallback, cleanup, resolve, reject in *.

Ltac split_matches :=
  repeat match goal with
    | |- context [match ?x with _ => _ end] => destruct x eqn:?; simpl in *
    | |- context [if ?x then _ else _] => destruct x eqn:?; simpl in *
    end.

(** Events by kind. *)
Definition is_recv (e : event) : bool :=
  match e with ERecv => true | _ => false end.

Definition is_timed_join (e : event) : bool :=
  match e with EJoin (Some _) => true | _ => false end.

(** The events that can end a handle. *)
Definition is_terminating (e : event) : bool :=
  match e with
  | EInterrupt | ECompletionMessage _ | EWorkerError _ => true
  | _ => false
  end.

(** The three errors the handle builds: in the timer of [join], in
    [completionHandler] and in [errorHandler]. *)
Definition known_error (e : string) : Prop :=
  (∃ timeout : Z, e = "Thread join timed out after " +:+ number_to_string timeout +:+ "ms") ∨
  (∃ v : value, e = "Thread error: " +:+ to_string v) ∨
  (∃ m : string, e = "Worker error: " +:+ m).

(** Every failure recorded so far is one of them. *)
Definition errors_inv (s : state) : Prop :=
  (∀ e, completionError (vars s) = Some e → known_error e) ∧
  (∀ p e, joins s !! p = Some (Rejected e) → known_error e).

(** The side of a handle the message channel works on, and the side the
    life cycle works on. *)
Definition channel_side (s : state) : MessagePort * list promise * list (callback * value) :=
  (messagePort1 s, recvs s, calls s).

Definition lifecycle_side (s : state) : Vars * Host * list promise :=
  (vars s, host s, joins s).

(** One [recv] followed by one dispatch, for each message of [ms]. *)
Definition recv_each (ms : list value) : list event :=
  flat_map (λ _, [ERecv; EPortDispatch]) ms.

(** What [recv] can have produced after the worker has posted [posted]:
    no rejected promise, and only posted messages, in the promises and in
    the queue. *)
Definition recv_inv (s : state) (posted : list value) : Prop :=
  (∀ p e, recvs s !! p ≠ Some (Rejected e)) ∧
  (∀ p v, recvs s !! p = Some (Resolved v) → v ∈ posted) ∧
  (∀ v, v ∈ queue (messagePort1 s) → v ∈ posted).

(** * Properties *)

(** ** Runs *)

Lemma run_nil s : run [] s = s.
Proof. reflexivity. Qed.

Lemma run_cons e evs s : run (e :: evs) s = run evs (step e s).
Proof. reflexivity. Qed.

Lemma run_app evs1 evs2 s : run (evs1 ++ evs2) s = run evs2 (run evs1 s).
Proof. unfold run. apply fold_left_app. Qed.

Lemma run_snoc evs e s : run (evs ++ [e]) s = step e (run evs s).
Proof. rewrite run_app. reflexivity. Qed.

Lemma reachable_spawn f c : reachable (fst (spawn f c)).
Proof. exists f, c, []. reflexivity. Qed.

Lemma reachable_step e s : reachable s → reachable (step e s).
Proof.
  intros (f & c & evs & ->). exists f, c, (evs ++ [e]). now rewrite run_snoc.
Qed.

Lemma reachable_run evs s : reachable s → reachable (run evs s).
Proof.
  revert s. induction evs as [|e evs IH]; intros s Hs; [exact Hs|].
  rewrite run_cons. apply IH, reachable_step, Hs.
Qed.

(** ** Promises *)

Lemma settle_length p r ps : length (settle p r ps) = length ps.
Proof.
  unfold settle. destruct (ps !! p) as [[]|]; try reflexivity.
  apply length_insert.
Qed.

Lemma settle_other p q r ps : p ≠ q → settle p r ps !! q = ps !! q.
Proof.
  intros Hne. unfold settle. destruct (ps !! p) as [[]|]; try reflexivity.
  now apply list_lookup_insert_ne.
Qed.

Lemma settle_lookup p q r ps :
  settle p r ps !! q =
    if decide (p = q)
    then match ps !! q with Some Pending => Some r | x => x end
    else ps !! q.
Proof.
  destruct (decide (p = q)) as [->|Hne]; [|now apply settle_other].
  unfold settle. destruct (ps !! q) as [[]|] eqn:Hq; try exact Hq.
  apply list_lookup_insert_eq. eapply lookup_lt_Some, Hq.
Qed.

Lemma settle_pending p r ps :
  ps !! p = Some Pending → settle p r ps !! p = Some r.
Proof.
  intros Hp. unfold settle. rewrite Hp.
  apply list_lookup_insert_eq. eapply lookup_lt_Some, Hp.
Qed.

Lemma settle_new p r ps :
  p = length ps → settle p r (ps ++ [Pending]) = ps ++ [r].
Proof.
  intros ->. unfold settle. rewrite list_lookup_middle by reflexivity.
  replace (length ps) with (length ps + 0) by lia.
  rewrite insert_app_r. reflexivity.
Qed.

(** ** The life-cycle invariant *)

Lemma lifecycle_inv_spawn f c : lifecycle_inv (fst (spawn f c)).
Proof. split; simpl; intros; try reflexivity; try discriminate; constructor. Qed.

Lemma lifecycle_inv_step e s : lifecycle_inv s → lifecycle_inv (step e s).
Proof.
  intros [Hi He Hc Hcl Hr Ht Hp Hn].
  destruct e; unfold_handle; simpl; split_matches;
    split; simpl; intros; try congruence; try reflexivity; auto.
  all: try (apply Forall_app; split; [auto | repeat constructor]).
  all: try (specialize (Hi eq_refl); congruence).
  all: repeat match goal with
         | H : ?P → _, H' : ?P |- _ => specialize (H H')
         end; congruence.
Qed.

Lemma lifecycle_inv_run evs s : lifecycle_inv s → lifecycle_inv (run evs s).
Proof.
  revert s. induction evs as [|e evs IH]; intros s Hs; [exact Hs|].
  rewrite run_cons. apply IH, lifecycle_inv_step, Hs.
Qed.

Lemma reachable_inv s : reachable s → lifecycle_inv s.
Proof. intros (f & c & evs & ->). apply lifecycle_inv_run, lifecycle_inv_spawn. Qed.

Lemma reachable_running_not_interrupted s :
  reachable s → completed (vars s) = false → interrupted (vars s) = false.
Proof.
  intros Hr Hc. apply reachable_inv in Hr.
  destruct (interrupted (vars s)) eqn:Hi; [|reflexivity].
  apply (inv_interrupted s Hr) in Hi. congruence.
Qed.

(** ** Thread ids *)

Section ThreadIds.

Lemma spawn_many_counter jobs c :
  snd (spawn_many jobs c) = (c + Z.of_nat (length jobs))%Z.
Proof.
  revert c. induction jobs as [|f jobs IH]; intros c; simpl.
  - lia.
  - specialize (IH (c + 1)%Z).
    destruct (spawn_many jobs (c + 1)) as [hs c']. simpl in *. lia.
Qed.

Lemma spawn_many_length jobs c :
  length (fst (spawn_many jobs c)) = length jobs.
Proof.
  revert c. induction jobs as [|f jobs IH]; intros c; simpl; [reflexivity|].
  specialize (IH (c + 1)%Z).
  destruct (spawn_many jobs (c + 1)) as [hs c']. simpl in *. now rewrite IH.
Qed.

(** The [i]-th handle spawned holds the counter's start value plus [i]. *)
Lemma spawn_many_lookup jobs c i h :
  fst (spawn_many jobs c) !! i = Some h → id h = (c + Z.of_nat i)%Z.
Proof.
  revert c i. induction jobs as [|f jobs IH]; intros c i; simpl.
  - intros H. discriminate.
  - specialize (IH (c + 1)%Z).
    destruct (spawn_many jobs (c + 1)) as [hs c']. simpl in *.
    destruct i as [|i]; simpl.
    + intros [= <-]. unfold id; simpl. lia.
    + intros H. rewrite (IH _ H). lia.
Qed.

Lemma spawn_many_ids_lookup jobs c i a :
  map id (fst (spawn_many jobs c)) !! i = Some a → a = (c + Z.of_nat i)%Z.
Proof.
  rewrite list_lookup_fmap.
  destruct (fst (spawn_many jobs c) !! i) as [h|] eqn:Hh; simpl; [|discriminate].
  intros [= <-]. eapply spawn_many_lookup, Hh.
Qed.

End ThreadIds.

(** C6.  The ids returned by [spawn] for any list of jobs spawned one
    after the other (so for any number [N ≥ 1] of them), the counter
    starting at its initial value 1, are as many as the jobs, pairwise
    distinct, strictly increasing in spawn order and all different from
    0, the id [Thread.id()] returns in the spawning context. *)
Theorem C6_spawn_ids_distinct_increasing_nonzero (jobs : list job) :
  let ids := map id (fst (spawn_many jobs threadIdCounter_init)) in
  length ids = length jobs ∧
  NoDup ids ∧
  (∀ i j a b, i < j → ids !! i = Some a → ids !! j = Some b → (a < b)%Z) ∧
  Forall (λ a, a ≠ 0%Z) ids ∧
  getThreadId = 0%Z ∧ getThreadId ∉ ids.
Proof.
  intros ids. subst ids. repeat split.
  - now rewrite length_map, spawn_many_length.
  - apply NoDup_alt. intros i j a Hi Hj.
    apply spawn_many_ids_lookup in Hi, Hj. lia.
  - intros i j a b Hlt Hi Hj.
    apply spawn_many_ids_lookup in Hi, Hj. lia.
  - apply Forall_lookup. intros i a Hi.
    apply spawn_many_ids_lookup in Hi. unfold threadIdCounter_init in Hi. lia.
  - intros Hin. apply list_elem_of_lookup in Hin as [i Hi].
    apply spawn_many_ids_lookup in Hi.
    unfold getThreadId, mainThreadId, threadIdCounter_init in Hi. lia.
Qed.

(** ** [join] on a handle that is no longer running *)

Section JoinAfterCompletion.

Lemma join_returns_next_promise t s : snd (join t s) = length (joins s).
Proof. unfold join. simpl. split_matches; reflexivity. Qed.

(** Such a [join] only adds its own promise, already settled. *)
Lemma join_completed t s :
  completed (vars s) = true →
  join t s = (with_joins (λ ps, ps ++ [stored_outcome s]) s, length (joins s)).
Proof.
  intros Hc. unfold join, stored_outcome, resolve, reject. simpl. rewrite Hc.
  destruct (interrupted (vars s)); [|destruct (completionError (vars s))];
    unfold with_joins; simpl; now rewrite settle_new.
Qed.

(** Once [completed] is set it stays set, and the promises made so far
    are never touched again. *)
Lemma completed_step e s :
  completed (vars s) = true →
  completed (vars (step e s)) = true ∧ ∃ l, joins (step e s) = joins s ++ l.
Proof.
  intros Hc. destruct e; simpl.
  - rewrite join_completed by exact Hc. simpl. eauto.
  - split; [reflexivity|]. exists []. now rewrite app_nil_r.
  - split; [exact Hc|]. exists []. now rewrite app_nil_r.
  - split; [exact Hc|]. exists []. now rewrite app_nil_r.
  - split; [exact Hc|]. exists []. now rewrite app_nil_r.
  - unfold dispatch. split_matches; (split; [exact Hc|]);
      exists []; now rewrite app_nil_r.
  - unfold completionHandler. rewrite Hc, andb_false_r.
    split_matches; (split; [exact Hc|]); exists []; now rewrite app_nil_r.
  - unfold errorHandler. rewrite Hc. simpl.
    split_matches; (split; [exact Hc|]); exists []; now rewrite app_nil_r.
  - destruct (timers (host s) !! t) as [[timeout p]|];
      [unfold timeoutCallback; simpl; rewrite Hc; simpl|];
      (split; [exact Hc|]); exists []; now rewrite app_nil_r.
Qed.

Lemma completed_run evs s :
  completed (vars s) = true →
  completed (vars (run evs s)) = true ∧ ∃ l, joins (run evs s) = joins s ++ l.
Proof.
  revert s. induction evs as [|e evs IH]; intros s Hc.
  - split; [exact Hc|]. exists []. now rewrite app_nil_r.
  - rewrite run_cons. destruct (completed_step e s Hc) as [Hc' [l Hl]].
    destruct (IH _ Hc') as [Hc'' [l' Hl']]. split; [exact Hc''|].
    exists (l ++ l'). now rewrite Hl', Hl, app_assoc.
Qed.

(** Only [interrupt] assigns the variables of a handle that is no
    longer running, and only it runs the teardown again. *)
Lemma completed_step_frame e s :
  completed (vars s) = true → is_interrupt e = false →
  vars (step e s) = vars s ∧ teardown_calls (step e s) = teardown_calls s.
Proof.
  intros Hc Hi. destruct e; simpl; try discriminate; try (split; reflexivity).
  - rewrite join_completed by exact Hc. split; reflexivity.
  - unfold dispatch. split_matches; split; reflexivity.
  - unfold completionHandler. rewrite Hc, andb_false_r.
    split_matches; split; reflexivity.
  - unfold errorHandler. rewrite Hc. simpl. split_matches; split; reflexivity.
  - destruct (timers (host s) !! t) as [[timeout p]|];
      [unfold timeoutCallback; simpl; rewrite Hc; simpl|]; split; reflexivity.
Qed.

Lemma completed_run_frame evs s :
  completed (vars s) = true → forallb (λ e, negb (is_interrupt e)) evs = true →
  vars (run evs s) = vars s ∧ teardown_calls (run evs s) = teardown_calls s.
Proof.
  revert s. induction evs as [|e evs IH]; intros s Hc Hevs; [split; reflexivity|].
  simpl in Hevs. apply andb_true_iff in Hevs as [He Hevs].
  apply negb_true_iff in He.
  destruct (completed_step_frame e s Hc He) as [Hv Ht].
  rewrite run_cons. destruct (IH (step e s)) as [Hv' Ht'].
  - now rewrite Hv.
  - exact Hevs.
  - split; congruence.
Qed.

Lemma stored_outcome_settled s : stored_outcome s ≠ Pending.
Proof.
  unfold stored_outcome.
  destruct (interrupted (vars s)); [|destruct (completionError (vars s))];
    discriminate.
Qed.

End JoinAfterCompletion.

(** ** [join] on a running handle *)

Section JoinWhileRunning.

Lemma join_running t s :
  interrupted (vars s) = false → completed (vars s) = false →
  join t s =
    (let p := length (joins s) in
     let s := with_joins (λ ps, ps ++ [Pending]) s in
     let s := set_completionResolve (Some p) s in
     let s := set_completionReject (Some p) s in
     match t with
     | Some t =>
         set_timeoutId (Some (next_timer (host s))) (setTimeout t p s)
     | None => s
     end, length (joins s)).
Proof.
  intros Hi Hc. unfold join. simpl. rewrite Hi, Hc.
  destruct t; reflexivity.
Qed.

(** Message traffic leaves the variables, the worker, the completion
    port, the timers and the [join] promises alone. *)
Lemma message_event_frame e s :
  message_event e = true →
  vars (step e s) = vars s ∧ host (step e s) = host s ∧
  joins (step e s) = joins s.
Proof.
  intros He. destruct e; try discriminate; simpl; unfold dispatch;
    split_matches; repeat split.
Qed.

Lemma message_events_frame evs s :
  forallb message_event evs = true →
  vars (run evs s) = vars s ∧ host (run evs s) = host s ∧
  joins (run evs s) = joins s.
Proof.
  revert s. induction evs as [|e evs IH]; intros s Hevs; [repeat split|].
  simpl in Hevs. apply andb_true_iff in Hevs as [He Hevs].
  destruct (message_event_frame e s He) as (Hv & Hh & Hj).
  rewrite run_cons. destruct (IH (step e s) Hevs) as (Hv' & Hh' & Hj').
  repeat split; congruence.
Qed.

(** A completion message handled while the handle runs: the timer of
    [timeoutId] is cleared and the registered waiter is settled. *)
Lemma completionHandler_running data s p :
  is_complete data = true → completed (vars s) = false →
  completionResolve (vars s) = Some p → completionReject (vars s) = Some p →
  let s' := completionHandler data s in
  completed (vars s') = true ∧
  joins s' = settle p (completion_outcome data) (joins s) ∧
  timers (host s') =
    match timeoutId (vars s) with
    | Some t => delete t (timers (host s))
    | None => timers (host s)
    end ∧
  teardown_calls s' =
    (terminate_calls (host s), S (close_calls (host s)),
     S (revoke_calls (host s))) ∧
  interrupted (vars s') = interrupted (vars s) ∧
  completionError (vars s') =
    (if truthy (prop "error" data)
     then Some ("Thread error: " +:+ to_string (prop "error" data))
     else completionError (vars s)) ∧
  completionCode (vars s') =
    (if truthy (prop "error" data) then completionCode (vars s)
     else js_or (prop "code" data) (VNumber 0)).
Proof.
  intros Hd Hc Hres Hrej. unfold is_complete in Hd.
  unfold completionHandler, completion_outcome. rewrite Hd, Hc. simpl.
  destruct (timeoutId (vars s)); simpl;
    destruct (truthy (prop "error" data)); simpl;
    rewrite ?Hres, ?Hrej; simpl; repeat split.
Qed.

(** Whether or not a waiter is registered, such a message runs [cleanup]
    once and leaves the worker running. *)
Lemma completionHandler_teardown data s :
  is_complete data = true → completed (vars s) = false →
  completed (vars (completionHandler data s)) = true ∧
  teardown_calls (completionHandler data s) =
    (terminate_calls (host s), S (close_calls (host s)),
     S (revoke_calls (host s))).
Proof.
  intros Hd Hc. unfold is_complete in Hd.
  unfold completionHandler. rewrite Hd, Hc. simpl.
  destruct (timeoutId (vars s)); simpl;
    destruct (truthy (prop "error" data)); simpl;
    destruct (completionReject (vars s));
    destruct (completionResolve (vars s)); split; reflexivity.
Qed.

(** The callback of a timer that fires while the handle runs. *)
Lemma timeoutCallback_running timeout p s :
  completed (vars s) = false →
  let s' := timeoutCallback timeout p s in
  completed (vars s') = true ∧
  joins s' =
    settle p (Rejected ("Thread join timed out after " +:+ number_to_string timeout +:+ "ms"))
      (joins s) ∧
  teardown_calls s' =
    (S (terminate_calls (host s)), S (close_calls (host s)),
     S (revoke_calls (host s))).
Proof.
  intros Hc. unfold timeoutCallback. rewrite Hc. simpl. repeat split.
Qed.


End JoinWhileRunning.

Section Waiters.

(** What a [join] on a running handle leaves behind: a new pending
    promise, registered in both callback slots, and a timer when a
    timeout was given. *)
Lemma join_running_facts t s :
  reachable s → completed (vars s) = false →
  let s1 := fst (join t s) in
  let p := snd (join t s) in
  reachable s1 ∧ completed (vars s1) = false ∧
  p = length (joins s) ∧ joins s1 = joins s ++ [Pending] ∧
  completionResolve (vars s1) = Some p ∧ completionReject (vars s1) = Some p ∧
  match t with
  | Some timeout =>
      timeoutId (vars s1) = Some (next_timer (host s)) ∧
      timers (host s1) = <[next_timer (host s) := (timeout, p)]> (timers (host s))
  | None =>
      timeoutId (vars s1) = timeoutId (vars s) ∧
      timers (host s1) = timers (host s)
  end.
Proof.
  intros Hr Hc s1 p. subst s1 p.
  split; [apply (reachable_step (EJoin t)), Hr|].
  rewrite join_running;
    [|now apply reachable_running_not_interrupted|exact Hc].
  destruct t; simpl; repeat split; exact Hc.
Qed.

(** A running handle still listens on [completionPort1]. *)
Lemma completion_message_running data s :
  reachable s → completed (vars s) = false →
  step (ECompletionMessage data) s = completionHandler data s.
Proof.
  intros Hr Hc. apply reachable_inv in Hr. simpl.
  now rewrite (inv_completion_listener s Hr Hc), (inv_close s Hr Hc).
Qed.

End Waiters.



(** C3 (the code departs from the specification).  [completionResolve],
    [completionReject] and [timeoutId] hold one waiter, and [join] on a
    running handle overwrites them.  On a fresh handle, which is running,
    [join(a)] followed by another [join]:
    - when the completion message of a job that returned arrives next,
      before any timer has fired, the second promise is resolved with 0
      and the promise of [join(a)] is left pending, whatever happens
      afterwards; when the second [join] had a timeout too, only its
      timer is cancelled and the timer of [join(a)] stays armed;
    - when instead the timer of [join(a)] fires next, no completion
      message having arrived, [join(a)] is rejected with its timeout
      error and the handle is completed, so the second [join], whatever
      its timeout, is left pending whatever happens afterwards: its own
      timer finds the handle completed and does nothing. *)
Theorem C3_join_overtaken_by_later_join_never_settles
    (g : job) (c a b : Z) (t2 : option Z) (evs : list event) :
  let s0 := fst (spawn g c) in
  completed (vars s0) = false ∧
  (let s := run [EJoin (Some a); EJoin t2; ECompletionMessage success_data] s0 in
   joins s = [Pending; Resolved (VNumber 0)] ∧
   joins (run evs s) !! 0 = Some Pending) ∧
  (let s := run [EJoin (Some a); EJoin (Some b);
                 ECompletionMessage success_data] s0 in
   timers (host s) !! 0 = Some (a, 0) ∧ timers (host s) !! 1 = None) ∧
  (let s := run [EJoin (Some a); EJoin t2; ETimerFire 0] s0 in
   joins s =
     [Rejected ("Thread join timed out after " +:+ number_to_string a +:+ "ms");
      Pending] ∧
   joins (run evs s) !! 1 = Some Pending) ∧
  (let s := run [EJoin (Some a); EJoin (Some b); ETimerFire 0; ETimerFire 1] s0 in
   joins s =
     [Rejected ("Thread join timed out after " +:+ number_to_string a +:+ "ms");
      Pending]).
Proof.
  intros s0. split; [reflexivity|]. split; [|split; [|split]].
  - intros s.
    assert (Hj : joins s = [Pending; Resolved (VNumber 0)])
      by (subst s s0; destruct t2; reflexivity).
    assert (Hc : completed (vars s) = true)
      by (subst s s0; destruct t2; reflexivity).
    split; [exact Hj|].
    destruct (completed_run evs s Hc) as [_ [l ->]]. now rewrite Hj.
  - intros s. subst s s0. split; reflexivity.
  - intros s.
    assert (Hj : joins s =
                 [Rejected ("Thread join timed out after " +:+
                            number_to_string a +:+ "ms"); Pending])
      by (subst s s0; destruct t2; reflexivity).
    assert (Hc : completed (vars s) = true)
      by (subst s s0; destruct t2; reflexivity).
    split; [exact Hj|].
    destruct (completed_run evs s Hc) as [_ [l ->]]. now rewrite Hj.
  - intros s. subst s s0. reflexivity.
Qed.

(** ** [interrupt] *)

Section Interrupt.

Lemma interrupted_step e s :
  interrupted (vars s) = true → interrupted (vars (step e s)) = true.
Proof.
  intros Hi. destruct e; unfold_handle; simpl; split_matches;
    first [assumption | reflexivity | congruence].
Qed.

Lemma interrupted_run evs s :
  interrupted (vars s) = true → interrupted (vars (run evs s)) = true.
Proof.
  revert s. induction evs as [|e evs IH]; intros s Hi; [exact Hi|].
  rewrite run_cons. apply IH, interrupted_step, Hi.
Qed.

(** A [join] made at any time after [interrupt] resolves with 1 at
    once, and keeps that value. *)
Lemma join_after_interrupt s mid t evs :
  let s1 := run mid (interrupt s) in
  joins (run evs (fst (join t s1))) !! snd (join t s1) =
    Some (Resolved (VNumber 1)).
Proof.
  intros s1.
  assert (Hi : interrupted (vars s1) = true) by now apply interrupted_run.
  assert (Hc : completed (vars s1) = true) by now apply completed_run.
  rewrite join_completed by exact Hc. simpl.
  destruct (completed_run evs (with_joins (λ ps, ps ++ [stored_outcome s1]) s1) Hc)
    as [_ [l ->]]. simpl.
  apply lookup_app_l_Some. unfold stored_outcome. rewrite Hi.
  now apply list_lookup_middle.
Qed.

(** A [join] that is pending when [interrupt] is called is not settled
    by it, and by nothing that follows; the timer it armed is left
    armed. *)
Lemma pending_join_lost_by_interrupt s t evs :
  reachable s → completed (vars s) = false →
  let s1 := fst (join t s) in
  let p := snd (join t s) in
  joins (run evs (interrupt s1)) !! p = Some Pending ∧
  timers (host (interrupt s1)) = timers (host s1).
Proof.
  intros Hr Hc s1 p.
  destruct (join_running_facts t s Hr Hc) as (_ & _ & Hp & Hj & _).
  fold s1 p in Hp, Hj. split; [|reflexivity].
  destruct (completed_run evs (interrupt s1) eq_refl) as [_ [l ->]].
  apply lookup_app_l_Some. simpl. rewrite Hj, Hp.
  now apply list_lookup_middle.
Qed.



End Interrupt.

(** C1 (the code departs from the specification).  [join(t)] on a fresh
    handle, then [interrupt()]: whatever happens afterwards, the promise that
    [join] returned is still pending.  [interrupt] sets the flags and
    tears down, but calls neither [completionResolve] nor [clearTimeout];
    the handlers that would settle the promise are detached or guarded by
    [completed]. *)
Theorem C1_join_pending_at_interrupt_never_settles
    (f : job) (c : Z) (t : option Z) (evs : list event) :
  joins (run (EJoin t :: EInterrupt :: evs) (fst (spawn f c))) !! 0 = Some Pending.
Proof.
  rewrite !run_cons.
  pose proof (proj1 (pending_join_lost_by_interrupt (fst (spawn f c)) t evs
                       (reachable_spawn f c) eq_refl)) as H.
  rewrite join_returns_next_promise in H. exact H.
Qed.

(** ** The worker's posts and the outcome of [join] *)

Section WorkerOutcome.

Lemma port_posts_transmit ms : port_posts (map PortPost ms) = ms.
Proof. induction ms as [|m l IH]; simpl; [reflexivity|]. f_equal. exact IH. Qed.

Lemma completion_posts_transmit ms : completion_posts (map PortPost ms) = [].
Proof. induction ms as [|m l IH]; simpl; [reflexivity|exact IH]. Qed.

Lemma arrive_transmit ms :
  flat_map arrive (map PortPost ms) = map EPortMessage ms.
Proof. induction ms as [|m l IH]; simpl; [reflexivity|]. now rewrite IH. Qed.

(** The posts of a body that posts nothing on [completionPort] arrive as
    the messages the job sent. *)
Lemma arrive_transmit_only ps :
  completion_posts ps = [] →
  flat_map arrive ps = map EPortMessage (port_posts ps).
Proof.
  induction ps as [|[m|m] l IH]; simpl; intros H; [reflexivity| |discriminate].
  f_equal. now apply IH.
Qed.

Lemma worker_events_returns j :
  finish j = Returns → completions j = [] →
  worker_events j =
    map EPortMessage (sends j) ++ [ECompletionMessage success_data].
Proof.
  intros Hf Hc. unfold worker_events, workerCode.
  rewrite Hf, flat_map_app. f_equal. now apply arrive_transmit_only.
Qed.

Lemma worker_events_job_sends ms :
  worker_events (job_sends ms) =
    map EPortMessage ms ++ [ECompletionMessage success_data].
Proof.
  rewrite (worker_events_returns (job_sends ms) eq_refl
             (completion_posts_transmit ms)).
  unfold sends. simpl. now rewrite port_posts_transmit.
Qed.

Lemma worker_events_throws j e :
  finish j = Throws e → completions j = [] →
  worker_events j =
    map EPortMessage (sends j ++ [diagnostic e]) ++
    [ECompletionMessage (failure_data e)].
Proof.
  intros Hf Hc. unfold worker_events, workerCode.
  rewrite Hf, flat_map_app, map_app, <- app_assoc.
  f_equal. now apply arrive_transmit_only.
Qed.

(** On [port] a job that throws posts what it sent, then the diagnostic. *)
Lemma port_posts_throws j e :
  finish j = Throws e →
  port_posts (workerCode j) = sends j ++ [diagnostic e].
Proof.
  intros Hf. unfold sends, port_posts, workerCode.
  now rewrite Hf, omap_app.
Qed.

Lemma port_messages_are_message_events l :
  forallb message_event (map EPortMessage l) = true.
Proof. induction l; simpl; auto. Qed.

Lemma port_messages_queue l s :
  messagePort1 (run (map EPortMessage l) s) =
    {| started := started (messagePort1 s);
       queue := queue (messagePort1 s) ++ l;
       onmessage := onmessage (messagePort1 s);
       listeners := listeners (messagePort1 s) |}.
Proof.
  revert s. induction l as [|m l IH]; intros s.
  - simpl. rewrite app_nil_r. now destruct (messagePort1 s).
  - rewrite map_cons, run_cons, IH. simpl. now rewrite <- app_assoc.
Qed.

(** The life cycle does not touch [messagePort1]. *)
Lemma join_port t s : messagePort1 (fst (join t s)) = messagePort1 s.
Proof. unfold join, resolve, reject. simpl. split_matches; reflexivity. Qed.

Lemma completion_message_port data s :
  messagePort1 (step (ECompletionMessage data) s) = messagePort1 s.
Proof.
  simpl. unfold completionHandler, cleanup, resolve, reject.
  split_matches; reflexivity.
Qed.

Lemma completion_message_joins_length data s :
  length (joins (step (ECompletionMessage data) s)) = length (joins s).
Proof.
  simpl. unfold completionHandler, cleanup, resolve, reject.
  split_matches; rewrite ?settle_length; reflexivity.
Qed.

(** A [join] registered on a running handle, message traffic, then a
    completion message: the promise gets the outcome of the message. *)
Lemma join_then_completion s t evs data :
  reachable s → completed (vars s) = false →
  forallb message_event evs = true → is_complete data = true →
  joins (step (ECompletionMessage data) (run evs (fst (join t s))))
    !! snd (join t s) = Some (completion_outcome data).
Proof.
  intros Hr Hc Hevs Hd.
  destruct (join_running_facts t s Hr Hc)
    as (Hr1 & Hc1 & Hp & Hj1 & Hres1 & Hrej1 & _).
  destruct (message_events_frame evs (fst (join t s)) Hevs) as (Hv2 & _ & Hj2).
  rewrite completion_message_running;
    [|now apply reachable_run|now rewrite Hv2].
  destruct (completionHandler_running data (run evs (fst (join t s)))
              (snd (join t s)) Hd) as (_ & Hj3 & _); try now rewrite Hv2.
  rewrite Hj3. apply settle_pending.
  rewrite Hj2, Hj1, Hp. now apply list_lookup_middle.
Qed.

(** The completion message first, then [join]: the promise is settled
    at once with the same outcome. *)
Lemma completion_then_join s t evs data :
  reachable s → completed (vars s) = false →
  forallb message_event evs = true → is_complete data = true →
  let s1 := step (ECompletionMessage data) (run evs s) in
  stored_outcome s1 = completion_outcome data ∧
  joins (fst (join t s1)) !! snd (join t s1) = Some (completion_outcome data).
Proof.
  intros Hr Hc Hevs Hd s1.
  destruct (message_events_frame evs s Hevs) as (Hv2 & _ & _).
  assert (Hr2 : reachable (run evs s)) by now apply reachable_run.
  assert (Hc2 : completed (vars (run evs s)) = false) by now rewrite Hv2.
  pose proof (reachable_running_not_interrupted _ Hr2 Hc2) as Hi2.
  pose proof (inv_no_error _ (reachable_inv _ Hr2) Hc2) as He2.
  assert (Hs1 : s1 = completionHandler data (run evs s))
    by now apply completion_message_running.
  assert (Hfacts : completed (vars s1) = true ∧
                   stored_outcome s1 = completion_outcome data).
  { rewrite Hs1. unfold is_complete in Hd.
    unfold stored_outcome, completion_outcome, completionHandler.
    rewrite Hd, Hc2. simpl.
    destruct (timeoutId (vars (run evs s))); simpl;
      destruct (truthy (prop "error" data)); simpl;
      destruct (completionReject (vars (run evs s)));
      destruct (completionResolve (vars (run evs s)));
      simpl; rewrite ?Hi2, ?He2; split; reflexivity. }
  destruct Hfacts as [Hc1 Hout]. split; [exact Hout|].
  rewrite join_completed by exact Hc1. simpl. rewrite Hout.
  now apply list_lookup_middle.
Qed.

End WorkerOutcome.

(** C2 (the code departs from the specification).  [interrupt] is not
    guarded by [completed].  A job that sends its payloads and returns:
    once its posts have arrived the completion handler has closed the
    port and revoked the URL, once each; [interrupt], called then, closes
    and revokes a second time and terminates the worker.  On any handle,
    two calls of [interrupt] run the whole teardown twice. *)
Theorem C2_interrupt_repeats_teardown (payloads : list value) (c : Z) :
  let f := job_sends payloads in
  teardown_calls (run (worker_events f) (fst (spawn f c))) = (0, 1, 1) ∧
  teardown_calls (run (worker_events f ++ [EInterrupt]) (fst (spawn f c)))
    = (1, 2, 2) ∧
  (∀ g : job,
     teardown_calls (run [EInterrupt] (fst (spawn g c))) = (1, 1, 1) ∧
     teardown_calls (run [EInterrupt; EInterrupt] (fst (spawn g c))) = (2, 2, 2)).
Proof.
  intros f.
  assert (Hdone : teardown_calls (run (worker_events f) (fst (spawn f c)))
                  = (0, 1, 1)).
  { rewrite (worker_events_job_sends payloads : worker_events f = _), run_snoc.
    destruct (message_events_frame (map EPortMessage payloads) (fst (spawn f c))
                (port_messages_are_message_events _)) as (Hv & Hh & _).
    rewrite completion_message_running;
      [|apply reachable_run, reachable_spawn|now rewrite Hv].
    destruct (completionHandler_teardown success_data
                (run (map EPortMessage payloads) (fst (spawn f c))) eq_refl)
      as [_ Htd]; [now rewrite Hv|].
    rewrite Htd, Hh. reflexivity. }
  split; [exact Hdone|]. split; [|intros g; split; reflexivity].
  rewrite run_snoc. unfold teardown_calls in *. simpl.
  injection Hdone as -> -> ->. reflexivity.
Qed.

(** C7 (the code departs from the specification).  [join] on a completed
    handle reads the stored outcome, but [interrupt] is not guarded by
    [completed] and rewrites it: on any handle whose [completed] flag is
    set, [join], then [interrupt], then [join] again gives the stored
    outcome to the first promise and 1 to the second.  So after a job
    that sent its payloads and returned, the two calls of [join] resolve
    with 0 and with 1; and after the timer of a [join] has fired, a
    later [join] is rejected with the timeout error and, [interrupt]
    having been called, the next one resolves with 1. *)
Theorem C7_interrupt_rewrites_stored_outcome
    (payloads : list value) (g : job) (c timeout : Z) (t1 t2 : option Z) :
  (∀ s, completed (vars s) = true →
        joins (fst (join t2 (interrupt (fst (join t1 s))))) =
          joins s ++ [stored_outcome s; Resolved (VNumber 1)]) ∧
  (let f := job_sends payloads in
   joins (run (worker_events f ++ [EJoin t1; EInterrupt; EJoin t2])
            (fst (spawn f c))) =
     [Resolved (VNumber 0); Resolved (VNumber 1)]) ∧
  joins (run [EJoin (Some timeout); ETimerFire 0; EJoin t1; EInterrupt; EJoin t2]
           (fst (spawn g c))) =
    [Rejected ("Thread join timed out after " +:+ number_to_string timeout +:+ "ms");
     Rejected ("Thread join timed out after " +:+ number_to_string timeout +:+ "ms");
     Resolved (VNumber 1)].
Proof.
  assert (Hgen : ∀ s, completed (vars s) = true →
            joins (fst (join t2 (interrupt (fst (join t1 s))))) =
              joins s ++ [stored_outcome s; Resolved (VNumber 1)]).
  { intros s Hc.
    rewrite (join_completed t2 (interrupt (fst (join t1 s))) eq_refl).
    rewrite (join_completed t1 s Hc). simpl.
    now rewrite <- app_assoc. }
  split; [exact Hgen|]. split.
  - intros f.
    rewrite (worker_events_job_sends payloads : worker_events f = _).
    rewrite <- app_assoc, run_app. simpl app.
    rewrite !run_cons, run_nil.
    set (s1 := step (ECompletionMessage success_data)
                 (run (map EPortMessage payloads) (fst (spawn f c)))).
    pose proof (port_messages_are_message_events payloads) as Hmsgs.
    destruct (completion_then_join (fst (spawn f c)) t1 (map EPortMessage payloads)
                success_data (reachable_spawn f c) eq_refl Hmsgs eq_refl)
      as [Hout _]. fold s1 in Hout.
    destruct (message_events_frame _ (fst (spawn f c)) Hmsgs) as (Hv & _ & Hj).
    assert (Hc1 : completed (vars s1) = true).
    { subst s1. rewrite completion_message_running;
        [|apply reachable_run, reachable_spawn|now rewrite Hv].
      apply (completionHandler_teardown success_data);
        [reflexivity|now rewrite Hv]. }
    assert (Hj1 : joins s1 = []).
    { pose proof (completion_message_joins_length success_data
                    (run (map EPortMessage payloads) (fst (spawn f c)))) as Hlen.
      fold s1 in Hlen. rewrite Hj in Hlen. simpl in Hlen.
      now destruct (joins s1). }
    change (step (EJoin t2) (step EInterrupt (step (EJoin t1) s1)))
      with (fst (join t2 (interrupt (fst (join t1 s1))))).
    now rewrite (Hgen s1 Hc1), Hj1, Hout.
  - destruct t1, t2; reflexivity.
Qed.

Section ThrownErrors.

(** A job that throws: whether [join] is called before the worker's
    posts arrive or after, its promise gets the outcome of the failure
    message, and the diagnostic is queued on [messagePort1] behind the
    payloads the job sent. *)
Lemma thrown_error_outcome c j e t :
  finish j = Throws e → completions j = [] →
  joins (run (EJoin t :: worker_events j) (fst (spawn j c))) !! 0 =
    Some (completion_outcome (failure_data e)) ∧
  joins (run (worker_events j ++ [EJoin t]) (fst (spawn j c))) !! 0 =
    Some (completion_outcome (failure_data e)) ∧
  queue (messagePort1 (run (EJoin t :: worker_events j) (fst (spawn j c)))) =
    sends j ++ [diagnostic e].
Proof.
  intros Hf Hc. rewrite (worker_events_throws j e Hf Hc).
  rewrite run_cons, !run_app, !run_cons, !run_nil.
  pose proof (port_messages_are_message_events (sends j ++ [diagnostic e])) as Hm.
  split; [|split].
  - pose proof (join_then_completion (fst (spawn j c)) t _ (failure_data e)
                  (reachable_spawn j c) eq_refl Hm eq_refl) as H.
    rewrite join_returns_next_promise in H. exact H.
  - pose proof (completion_then_join (fst (spawn j c)) t _ (failure_data e)
                  (reachable_spawn j c) eq_refl Hm eq_refl) as [_ H].
    rewrite join_returns_next_promise, completion_message_joins_length in H.
    destruct (message_events_frame _ (fst (spawn j c)) Hm) as (_ & _ & Hj).
    rewrite Hj in H. exact H.
  - change (step (EJoin t) (fst (spawn j c))) with (fst (join t (fst (spawn j c)))).
    now rewrite completion_message_port, port_messages_queue, join_port.
Qed.

End ThrownErrors.

(** C5 (the code departs from the specification).  A job that throws an
    [Error] whose message is the empty string, whatever it sent before and
    whatever the stack: the failure message carries an empty [error], which
    [completionHandler] tests with [if (data.error)] and takes for a
    success, so [join] -- called before or after the worker's posts
    arrive -- resolves with the [code] 1 of the message instead of
    failing.  The diagnostic is queued on the message port all the same. *)
Theorem C5_error_with_empty_message_resolves_join
    (c : Z) (payloads : list value) (st : string) (t : option Z) :
  let j := {| body := map PortPost payloads;
              finish := Throws {| message := EmptyString; stack := st |} |} in
  joins (run (EJoin t :: worker_events j) (fst (spawn j c))) !! 0 =
    Some (Resolved (VNumber 1)) ∧
  joins (run (worker_events j ++ [EJoin t]) (fst (spawn j c))) !! 0 =
    Some (Resolved (VNumber 1)) ∧
  port_posts (workerCode j) =
    payloads ++ [VObject [("error", VString EmptyString);
                          ("stack", VString st)]] ∧
  queue (messagePort1 (run (EJoin t :: worker_events j) (fst (spawn j c)))) =
    payloads ++ [VObject [("error", VString EmptyString);
                          ("stack", VString st)]].
Proof.
  intros j.
  assert (Hsends : sends j = payloads) by apply port_posts_transmit.
  destruct (thrown_error_outcome c j {| message := EmptyString; stack := st |}
              t eq_refl (completion_posts_transmit payloads)) as (H1 & H2 & H3).
  rewrite Hsends in H3. repeat split; try assumption.
  rewrite <- Hsends. exact (port_posts_throws j _ eq_refl).
Qed.

(** For every other message the code does what C5 asks: [join]
    fails with "Thread error: <message>" and the diagnostic with the
    message and the stack is queued on the message port. *)
Lemma thrown_error_rejects_join c j e t :
  finish j = Throws e → completions j = [] → message e ≠ EmptyString →
  joins (run (EJoin t :: worker_events j) (fst (spawn j c))) !! 0 =
    Some (Rejected ("Thread error: " +:+ message e)) ∧
  joins (run (worker_events j ++ [EJoin t]) (fst (spawn j c))) !! 0 =
    Some (Rejected ("Thread error: " +:+ message e)) ∧
  queue (messagePort1 (run (EJoin t :: worker_events j) (fst (spawn j c)))) =
    sends j ++ [VObject [("error", VString (message e));
                         ("stack", VString (stack e))]].
Proof.
  intros Hf Hc Hne. pose proof (thrown_error_outcome c j e t Hf Hc) as H.
  assert (Hout : completion_outcome (failure_data e) =
                 Rejected ("Thread error: " +:+ message e)).
  { unfold completion_outcome, failure_data. simpl.
    apply String.eqb_neq in Hne. now rewrite Hne. }
  rewrite Hout in H. exact H.
Qed.

Section ExitCode.

Lemma completion_post_returns j data :
  finish j = Returns → completions j = [] →
  In (CompletionPost data) (workerCode j) →
  data = success_data.
Proof.
  intros Hf Hc Hin. unfold workerCode in Hin. rewrite Hf in Hin.
  apply in_app_or in Hin as [Hin | [Hin | []]].
  - assert (H : data ∈ completions j).
    { apply list_elem_of_omap. exists (CompletionPost data).
      split; [now apply list_elem_of_In|reflexivity]. }
    rewrite Hc in H. now apply elem_of_nil in H.
  - now injection Hin.
Qed.

Lemma exit_zero_settle q r ps :
  (∀ v, r = Resolved v → v = VNumber 0) →
  (∀ p v, ps !! p = Some (Resolved v) → v = VNumber 0) →
  ∀ p v, settle q r ps !! p = Some (Resolved v) → v = VNumber 0.
Proof.
  intros Hr Hps p v. rewrite settle_lookup.
  destruct (decide (q = p)) as [_|_]; [|apply Hps].
  destruct (ps !! p) as [[| v' | e]|] eqn:Hp; intros [= H]; auto.
  - subst v'. now apply (Hps p).
Qed.

Lemma exit_zero_snoc r ps :
  (∀ v, r = Resolved v → v = VNumber 0) →
  (∀ p v, ps !! p = Some (Resolved v) → v = VNumber 0) →
  ∀ p v, (ps ++ [r]) !! p = Some (Resolved v) → v = VNumber 0.
Proof.
  intros Hr Hps p v Hp. apply lookup_app_Some in Hp as [Hp | [_ Hp]].
  - now apply (Hps p).
  - apply list_lookup_singleton_Some in Hp as [_ Hp]. now apply Hr.
Qed.

Lemma exit_zero_step j e s :
  finish j = Returns → completions j = [] →
  posted_by j e → is_interrupt e = false →
  exit_zero_inv s → exit_zero_inv (step e s).
Proof.
  intros Hf Hown Hpost Hne (Hi & Hcode & Hjoins).
  destruct e; try discriminate.
  - change (step (EJoin timeout) s) with (fst (join timeout s)).
    destruct (completed (vars s)) eqn:Hc.
    + rewrite join_completed by exact Hc. repeat split; try assumption.
      simpl. apply exit_zero_snoc; [|exact Hjoins].
      unfold stored_outcome. rewrite Hi, Hcode.
      destruct (completionError (vars s)); intros v [= <-]; reflexivity.
    + rewrite join_running by assumption.
      destruct timeout; simpl; repeat split; try assumption;
        (apply exit_zero_snoc; [discriminate|exact Hjoins]).
  - repeat split; assumption.
  - repeat split; assumption.
  - repeat split; assumption.
  - simpl. unfold dispatch. split_matches; repeat split; assumption.
  - simpl in Hpost. apply (completion_post_returns j data Hf Hown) in Hpost.
    subst data.
    simpl. unfold completionHandler, cleanup, resolve, reject.
    split_matches; repeat split; try assumption; try reflexivity;
      apply exit_zero_settle; try assumption; intros v [= <-]; reflexivity.
  - simpl. unfold errorHandler, cleanup, resolve, reject.
    split_matches; repeat split; try assumption;
      apply exit_zero_settle; try assumption; discriminate.
  - simpl. unfold timeoutCallback, cleanup, resolve, reject.
    split_matches; repeat split; try assumption;
      apply exit_zero_settle; try assumption; discriminate.
Qed.

Lemma exit_zero_run j evs s :
  finish j = Returns → completions j = [] → Forall (posted_by j) evs →
  forallb (λ e, negb (is_interrupt e)) evs = true →
  exit_zero_inv s → exit_zero_inv (run evs s).
Proof.
  intros Hf Hown. revert s.
  induction evs as [|e evs IH]; intros s Hpost Hne Hinv.
  - exact Hinv.
  - apply Forall_cons in Hpost as [He Hpost]. simpl in Hne.
    apply andb_true_iff in Hne as [Hne Hnes]. apply negb_true_iff in Hne.
    rewrite run_cons. apply IH; try assumption.
    now apply (exit_zero_step j).
Qed.

(** The events of a job that returns and whose first post on
    [completionPort] is [d]. *)
Lemma worker_events_own_completion ms d rest :
  worker_events {| body := map PortPost ms ++ CompletionPost d :: rest;
                   finish := Returns |} =
    map EPortMessage ms ++
    ECompletionMessage d ::
    flat_map arrive (rest ++ [CompletionPost success_data]).
Proof.
  unfold worker_events, workerCode. simpl.
  rewrite <- app_assoc, flat_map_app, arrive_transmit. reflexivity.
Qed.

End ExitCode.

(** C9, as stated, fails: the job's text runs where [completionPort] is
    in scope, so a job can post its own completion message before it
    returns.  A job that posts [{type, code: 5}] and returns: [join]
    resolves with 5; the script's own [{type, code: 0}] arrives when the
    handle is completed and is ignored. *)
Lemma C9_counterexample_job_posts_its_own_code :
  finish {| body := [CompletionPost
                       (VObject [("type", VString thread_complete);
                                 ("code", VNumber 5)])];
            finish := Returns |} = Returns ∧
  joins (run (EJoin None ::
              worker_events
                {| body := [CompletionPost
                              (VObject [("type", VString thread_complete);
                                        ("code", VNumber 5)])];
                   finish := Returns |})
           (first_handle
              {| body := [CompletionPost
                            (VObject [("type", VString thread_complete);
                                      ("code", VNumber 5)])];
                 finish := Returns |})) !! 0 =
    Some (Resolved (VNumber 5)).
Proof. split; reflexivity. Qed.

(** C9, amended.  A job whose function returns and which posts nothing
    on [completionPort] itself (it uses [transmit] only) makes the script
    post one completion message, [{type, code: 0}], and [join] resolves
    with that 0:
    - on a running handle, with message traffic in between, the message
      resolves with 0 the [join] registered before it;
    - it sets [completionCode] to 0, so a [join] called after it
      resolves with 0 at once;
    - from a fresh handle, [join] followed by the worker's posts
      resolves with 0;
    - a completion message without a truthy [error] whose [code] is
      missing or falsy is normalised to 0 in the same way;
    - in every run of the handle in which [interrupt] is not called, no
      [join] ever resolves with a value other than 0.
    A job that returns and whose first post on [completionPort] is a
    completion message [d] of its own (without a truthy [error]),
    whatever it sends before and posts after, makes [join] resolve with
    the [code] of [d], or with 0 when that is missing or falsy. *)
Theorem C9_returning_job_joins_with_zero (j : job) :
  finish j = Returns → completions j = [] →
  completion_posts (workerCode j) = [success_data] ∧
  (∀ s t evs,
     reachable s → completed (vars s) = false →
     forallb message_event evs = true →
     joins (step (ECompletionMessage success_data) (run evs (fst (join t s))))
       !! snd (join t s) = Some (Resolved (VNumber 0))) ∧
  (∀ s t evs,
     reachable s → completed (vars s) = false →
     forallb message_event evs = true →
     let s1 := step (ECompletionMessage success_data) (run evs s) in
     completionCode (vars s1) = VNumber 0 ∧
     joins (fst (join t s1)) !! snd (join t s1) = Some (Resolved (VNumber 0))) ∧
  (∀ c t,
     joins (run (EJoin t :: worker_events j) (fst (spawn j c))) !! 0 =
       Some (Resolved (VNumber 0))) ∧
  (∀ s t evs data,
     reachable s → completed (vars s) = false →
     forallb message_event evs = true →
     is_complete data = true → truthy (prop "error" data) = false →
     truthy (prop "code" data) = false →
     completionCode (vars (completionHandler data s)) = VNumber 0 ∧
     joins (step (ECompletionMessage data) (run evs (fst (join t s))))
       !! snd (join t s) = Some (Resolved (VNumber 0))) ∧
  (∀ c evs p v,
     Forall (posted_by j) evs →
     forallb (λ e, negb (is_interrupt e)) evs = true →
     joins (run evs (fst (spawn j c))) !! p = Some (Resolved v) → v = VNumber 0) ∧
  (∀ ms d rest c t,
     is_complete d = true → truthy (prop "error" d) = false →
     let j' := {| body := map PortPost ms ++ CompletionPost d :: rest;
                  finish := Returns |} in
     joins (run (EJoin t :: worker_events j') (fst (spawn j' c))) !! 0 =
       Some (Resolved (js_or (prop "code" d) (VNumber 0)))).
Proof.
  intros Hf Hown. split; [|split; [|split; [|split; [|split; [|split]]]]].
  - unfold completions in Hown. unfold completion_posts, workerCode in *.
    now rewrite Hf, omap_app, Hown.
  - intros s t evs Hr Hc Hevs.
    exact (join_then_completion s t evs success_data Hr Hc Hevs eq_refl).
  - intros s t evs Hr Hc Hevs s1.
    destruct (completion_then_join s t evs success_data Hr Hc Hevs eq_refl)
      as [Hout Hj]. fold s1 in Hout, Hj. split; [|exact Hj].
    unfold stored_outcome in Hout.
    destruct (interrupted (vars s1)); [discriminate|].
    destruct (completionError (vars s1)); [discriminate|].
    now injection Hout.
  - intros c t.
    rewrite (worker_events_returns j Hf Hown), run_cons, run_app, run_cons,
      run_nil.
    pose proof (join_then_completion (fst (spawn j c)) t _ success_data
                  (reachable_spawn j c) eq_refl
                  (port_messages_are_message_events (sends j)) eq_refl) as H.
    rewrite join_returns_next_promise in H. exact H.
  - intros s t evs data Hr Hc Hevs Hd Herr Hcode. split.
    + unfold is_complete in Hd. unfold completionHandler, js_or.
      rewrite Hd, Hc. simpl. rewrite Herr.
      destruct (timeoutId (vars s)); simpl;
        destruct (completionResolve (vars s)); simpl; now rewrite Hcode.
    + rewrite (join_then_completion s t evs data Hr Hc Hevs Hd).
      unfold completion_outcome, js_or. now rewrite Herr, Hcode.
  - intros c evs p v Hpost Hne.
    assert (H0 : exit_zero_inv (fst (spawn j c))).
    { repeat split. intros q w Hq. discriminate. }
    destruct (exit_zero_run j evs (fst (spawn j c)) Hf Hown Hpost Hne H0)
      as (_ & _ & H).
    apply H.
  - intros ms d rest c t Hd Herr j'.
    rewrite (worker_events_own_completion ms d rest : worker_events j' = _).
    rewrite run_cons, run_app, run_cons.
    set (s3 := step (ECompletionMessage d)
                 (run (map EPortMessage ms) (step (EJoin t) (fst (spawn j' c))))).
    pose proof (join_then_completion (fst (spawn j' c)) t (map EPortMessage ms) d
                  (reachable_spawn j' c) eq_refl
                  (port_messages_are_message_events ms) Hd) as H.
    rewrite join_returns_next_promise in H.
    change (fst (join t (fst (spawn j' c))))
      with (step (EJoin t) (fst (spawn j' c))) in H. fold s3 in H.
    assert (Hc3 : completed (vars s3) = true).
    { subst s3.
      destruct (message_events_frame (map EPortMessage ms)
                  (step (EJoin t) (fst (spawn j' c)))
                  (port_messages_are_message_events ms)) as (Hv & _ & _).
      assert (Hrun : completed (vars (step (EJoin t) (fst (spawn j' c)))) = false)
        by (simpl; now destruct t).
      rewrite completion_message_running;
        [|apply reachable_run, (reachable_step (EJoin t)), reachable_spawn
         |now rewrite Hv].
      apply (completionHandler_teardown d); [exact Hd|now rewrite Hv]. }
    destruct (completed_run
                (flat_map arrive (rest ++ [CompletionPost success_data])) s3 Hc3)
      as [_ [l ->]].
    change (length (joins (fst (spawn j' c)))) with 0 in H.
    apply lookup_app_l_Some. rewrite H.
    unfold completion_outcome. now rewrite Herr.
Qed.

Lemma C9_witness :
  joins (run [EJoin (Some 1000%Z); EPortMessage (VNumber 7);
              ECompletionMessage success_data]
           (first_handle (job_sends [VNumber 7]))) !! 0 =
    Some (Resolved (VNumber 0)).
Proof.
  pose proof (C9_returning_job_joins_with_zero (job_sends [VNumber 7])
                eq_refl eq_refl) as H.
  destruct H as (_ & _ & _ & H & _). exact (H 1%Z (Some 1000%Z)).
Defined.

(** ** The message channel *)

Section PushMode.

Lemma sent_cons e evs : sent (e :: evs) = sent [e] ++ sent evs.
Proof. unfold sent. simpl. now destruct e. Qed.

(** One event on a port whose [onmessage] slot holds [cb]: either the
    calls are as before and the queue grew by what the event posted, or
    the head of the queue went to [cb]. *)
Lemma onmessage_step cb e s :
  onmessage (messagePort1 s) = Some cb → is_onMessage e = false →
  onmessage (messagePort1 (step e s)) = Some cb ∧
  (calls (step e s) = calls s ∧
   queue (messagePort1 (step e s)) = queue (messagePort1 s) ++ sent [e]
   ∨ ∃ m, queue (messagePort1 s) = m :: queue (messagePort1 (step e s)) ∧
          calls (step e s) = calls s ++ [(cb, m)] ∧ sent [e] = []).
Proof.
  intros Hcb He. destruct e; try discriminate.
  - change (step (EJoin timeout) s) with (fst (join timeout s)).
    rewrite join_port. split; [exact Hcb|]. left.
    split; [|now rewrite app_nil_r].
    unfold join, resolve, reject. simpl. split_matches; reflexivity.
  - split; [exact Hcb|]. left. split; [reflexivity|]. simpl. now rewrite app_nil_r.
  - split; [exact Hcb|]. left. split; [reflexivity|]. simpl. now rewrite app_nil_r.
  - split; [exact Hcb|]. left. split; reflexivity.
  - simpl. destruct (started (messagePort1 s));
      [destruct (queue (messagePort1 s)) as [|m q] eqn:Hq|].
    + split; [exact Hcb|]. left. rewrite Hq. split; reflexivity.
    + unfold dispatch. simpl. rewrite Hcb. simpl. split; [exact Hcb|].
      right. exists m. repeat split.
    + split; [exact Hcb|]. left. split; [reflexivity|]. simpl. now rewrite app_nil_r.
  - rewrite completion_message_port. split; [exact Hcb|]. left.
    split; [|simpl; now rewrite app_nil_r].
    simpl. unfold completionHandler, cleanup, resolve, reject.
    split_matches; reflexivity.
  - simpl. unfold errorHandler, cleanup, resolve, reject.
    split_matches; (split; [exact Hcb|]); left;
      (split; [reflexivity|now rewrite app_nil_r]).
  - simpl. unfold timeoutCallback, cleanup, resolve, reject.
    split_matches; (split; [exact Hcb|]); left;
      (split; [reflexivity|now rewrite app_nil_r]).
Qed.

Lemma onmessage_run cb evs s :
  onmessage (messagePort1 s) = Some cb →
  forallb (λ e, negb (is_onMessage e)) evs = true →
  ∃ ds, calls (run evs s) = calls s ++ map (pair cb) ds ∧
        ds ++ queue (messagePort1 (run evs s)) =
          queue (messagePort1 s) ++ sent evs.
Proof.
  revert s. induction evs as [|e evs IH]; intros s Hcb Hevs.
  - exists []. simpl. now rewrite !app_nil_r.
  - simpl in Hevs. apply andb_true_iff in Hevs as [He Hevs].
    apply negb_true_iff in He.
    destruct (onmessage_step cb e s Hcb He) as [Hcb' Hstep].
    destruct (IH (step e s) Hcb' Hevs) as (ds & Hcalls & Hq).
    rewrite run_cons, sent_cons.
    destruct Hstep as [[Hc Hqs] | (m & Hqs & Hc & Hs)].
    + exists ds. rewrite Hcalls, Hc, Hq, Hqs. split; [reflexivity|].
      now rewrite app_assoc.
    + exists (m :: ds). rewrite Hcalls, Hc, Hs, Hqs. simpl.
      rewrite <- app_assoc. simpl. split; [reflexivity|]. now rewrite Hq.
Qed.

End PushMode.

(** C10.  [rx.onMessage(cb1)], anything in between, then
    [rx.onMessage(cb2)]: the slot now holds the handler of [cb2] alone,
    and as long as [onMessage] is not called again every message that is
    dispatched is passed to [cb2] and to no other callback, in the order
    the messages were queued; the messages not yet dispatched are still
    in the queue. *)
Theorem C10_second_onMessage_replaces_callback
    (s : state) (cb1 cb2 : callback) (mid evs : list event) :
  forallb (λ e, negb (is_onMessage e)) evs = true →
  let s1 := run mid (onMessage cb1 s) in
  let s2 := onMessage cb2 s1 in
  let s3 := run evs s2 in
  onmessage (messagePort1 (onMessage cb1 s)) = Some cb1 ∧
  onmessage (messagePort1 s2) = Some cb2 ∧
  ∃ ds, calls s3 = calls s1 ++ map (pair cb2) ds ∧
        ds ++ queue (messagePort1 s3) = queue (messagePort1 s1) ++ sent evs.
Proof.
  intros Hevs s1 s2 s3. split; [reflexivity|]. split; [reflexivity|].
  exact (onmessage_run cb2 evs s2 eq_refl Hevs).
Qed.

Lemma C10_witness :
  calls (run [EOnMessage 1; EPortMessage (VNumber 5); EPortDispatch;
              EOnMessage 2; EPortMessage (VNumber 6); EPortDispatch;
              EPortMessage (VNumber 7); EPortDispatch]
           (first_handle (job_sends [VNumber 5; VNumber 6; VNumber 7]))) =
    [(1, VNumber 5); (2, VNumber 6); (2, VNumber 7)].
Proof.
  pose proof (C10_second_onMessage_replaces_callback
                (first_handle (job_sends [VNumber 5; VNumber 6; VNumber 7])) 1 2
                [EPortMessage (VNumber 5); EPortDispatch]
                [EPortMessage (VNumber 6); EPortDispatch;
                 EPortMessage (VNumber 7); EPortDispatch] eq_refl) as H.
  destruct H as (_ & _ & ds & Hcalls & Hq).
  reflexivity.
Defined.

Section PullMode.

(** A message event resolves every pending [recv] whose listener is
    attached, all with the same message. *)
Lemma settle_all_lookup m hs ps p :
  p ∈ hs → ps !! p = Some Pending →
  foldr (λ h ps, settle h (Resolved m) ps) ps hs !! p = Some (Resolved m).
Proof.
  intros Hin Hp.
  assert (Hgen : ∀ hs,
    foldr (λ h ps, settle h (Resolved m) ps) ps hs !! p = Some (Resolved m) ∨
    (p ∉ hs) ∧
    foldr (λ h ps, settle h (Resolved m) ps) ps hs !! p = Some Pending).
  { clear hs Hin. induction hs as [|h hs IH]; simpl.
    - right. split; [apply not_elem_of_nil|exact Hp].
    - rewrite settle_lookup. destruct (decide (h = p)) as [->|Hne].
      + left. destruct IH as [-> | [_ ->]]; reflexivity.
      + destruct IH as [IH | [Hnin IH]]; [now left|right].
        split; [|exact IH]. rewrite elem_of_cons. intros [->|]; tauto. }
  destruct (Hgen hs) as [H | [Hnin _]]; [exact H|contradiction].
Qed.

Lemma pull_inv_frame s s' posted :
  recvs s' = recvs s →
  listeners (messagePort1 s') = listeners (messagePort1 s) →
  queue (messagePort1 s') = queue (messagePort1 s) →
  pull_inv s posted → pull_inv s' posted.
Proof. intros Hr Hl Hq (ds & H1 & H2 & H3). exists ds. now rewrite Hr, Hl, Hq. Qed.

Lemma pull_inv_step e s posted :
  pull_inv s posted → recv_ready e s = true →
  pull_inv (step e s) (posted ++ sent [e]).
Proof.
  intros Hinv Hready.
  destruct e; simpl sent; rewrite ?app_nil_r.
  - revert Hinv. change (step (EJoin timeout) s) with (fst (join timeout s)).
    apply pull_inv_frame; try (now rewrite join_port).
    unfold join, resolve, reject. simpl. split_matches; reflexivity.
  - revert Hinv. apply pull_inv_frame; reflexivity.
  - destruct Hinv as (ds & Hr & Hl & Hq). simpl in Hready.
    destruct (listeners (messagePort1 s)) eqn:Hls; [|discriminate].
    exists ds. simpl. rewrite Hls, Hr. simpl. rewrite app_nil_r.
    rewrite length_map. repeat split; auto.
  - revert Hinv. apply pull_inv_frame; reflexivity.
  - destruct Hinv as (ds & Hr & Hl & Hq). exists ds. simpl.
    rewrite app_assoc, Hq. repeat split; auto.
  - destruct Hinv as (ds & Hr & Hl & Hq). simpl in *.
    destruct (started (messagePort1 s)); [|exists ds; auto].
    destruct (queue (messagePort1 s)) as [|m q] eqn:Hqs; [exists ds; now rewrite Hqs|].
    destruct Hl as [Hl | Hl]; rewrite Hl in Hready, Hr; [discriminate|].
    exists (ds ++ [m]). unfold dispatch. simpl.
    destruct (onmessage (messagePort1 s)); simpl; rewrite Hl; simpl;
      rewrite Hr; simpl;
      (split; [|split; [now left|now rewrite <- app_assoc]]);
      rewrite app_nil_r, map_app; simpl;
      apply settle_new; now rewrite length_map.
  - revert Hinv. apply pull_inv_frame;
      try (now rewrite (completion_message_port data s)).
    simpl. unfold completionHandler, cleanup, resolve, reject.
    split_matches; reflexivity.
  - revert Hinv. apply pull_inv_frame; simpl;
      unfold errorHandler, cleanup, resolve, reject;
      split_matches; reflexivity.
  - revert Hinv. apply pull_inv_frame; simpl;
      unfold timeoutCallback, cleanup, resolve, reject;
      split_matches; reflexivity.
Qed.

Lemma pull_inv_run evs s posted :
  pull_inv s posted → one_at_a_time evs s = true →
  pull_inv (run evs s) (posted ++ sent evs).
Proof.
  revert s posted. induction evs as [|e evs IH]; intros s posted Hinv Hok.
  - simpl. now rewrite app_nil_r.
  - simpl in Hok. apply andb_true_iff in Hok as [He Hok].
    rewrite run_cons, sent_cons, app_assoc.
    apply IH; [|exact Hok]. now apply pull_inv_step.
Qed.

End PullMode.

(** C4, as stated, fails both ways.  With two [recv] calls pending, the
    one message that arrives resolves both promises: it is delivered
    twice.  And a message dispatched while no [recv] is pending (the port
    was started by an earlier [recv]) reaches no [recv] call at all: the
    next [recv] waits for a later message. *)
Lemma C4_counterexample_message_duplicated_or_lost :
  recvs (run [ERecv; ERecv; EPortMessage (VNumber 7); EPortDispatch]
           (first_handle (job_sends [VNumber 7]))) =
    [Resolved (VNumber 7); Resolved (VNumber 7)] ∧
  recvs (run [ERecv; EPortMessage (VNumber 1); EPortDispatch;
              EPortMessage (VNumber 2); EPortDispatch; ERecv]
           (first_handle (job_sends [VNumber 1; VNumber 2]))) =
    [Resolved (VNumber 1); Pending] ∧
  queue (messagePort1
           (run [ERecv; EPortMessage (VNumber 1); EPortDispatch;
                 EPortMessage (VNumber 2); EPortDispatch; ERecv]
              (first_handle (job_sends [VNumber 1; VNumber 2])))) = [].
Proof. repeat split. Qed.

(** C4, amended.  When [recv] is called one call at a time -- each call
    made while no earlier [recv] is pending, each message dispatched while
    a [recv] is pending -- the promises of the [recv] calls, in call
    order, are resolved with the messages the worker posted, in the order
    it posted them, one message per call and none twice; the messages not
    yet consumed are still queued and at most the last call is pending.
    When two [recv] calls are pending together, the one message that
    arrives resolves both. *)
Theorem C4_recv_one_call_at_a_time (f : job) (c : Z) (evs : list event) :
  one_at_a_time evs (fst (spawn f c)) = true →
  (let s := run evs (fst (spawn f c)) in
   ∃ ds,
     recvs s = map Resolved ds ++ map (λ _, Pending) (listeners (messagePort1 s)) ∧
     length (listeners (messagePort1 s)) ≤ 1 ∧
     ds ++ queue (messagePort1 s) = sent evs) ∧
  (∀ (s : state) (m : value),
     queue (messagePort1 s) = [] →
     let s1 := fst (recv s) in
     let p1 := snd (recv s) in
     let s2 := fst (recv s1) in
     let p2 := snd (recv s1) in
     let s3 := run [EPortMessage m; EPortDispatch] s2 in
     p1 ≠ p2 ∧
     recvs s2 !! p1 = Some Pending ∧ recvs s2 !! p2 = Some Pending ∧
     recvs s3 !! p1 = Some (Resolved m) ∧ recvs s3 !! p2 = Some (Resolved m)).
Proof.
  intros Hok. split.
  - intros s.
    assert (H0 : pull_inv (fst (spawn f c)) []) by (exists []; repeat split; now left).
    destruct (pull_inv_run evs (fst (spawn f c)) [] H0 Hok) as (ds & Hr & Hl & Hq).
    exists ds. fold s in Hr, Hl, Hq. repeat split; [exact Hr| |exact Hq].
    destruct Hl as [-> | ->]; simpl; lia.
  - intros s m Hq s1 p1 s2 p2 s3.
    assert (Hp1 : recvs s2 !! p1 = Some Pending).
    { subst s2 s1 p1. simpl.
      rewrite <- app_assoc. now apply list_lookup_middle. }
    assert (Hp2 : recvs s2 !! p2 = Some Pending).
    { subst s2 s1 p2. simpl. apply list_lookup_middle.
      now rewrite length_app. }
    assert (Hne : p1 ≠ p2).
    { subst p1 p2 s1. simpl. rewrite length_app. simpl. lia. }
    assert (Hs3 : recvs s3 =
                  foldr (λ h ps, settle h (Resolved m) ps) (recvs s2)
                    (listeners (messagePort1 s) ++ [p1; p2])).
    { subst s3 s2 s1 p1 p2. unfold run. simpl. rewrite Hq. simpl.
      unfold dispatch. simpl.
      destruct (onmessage (messagePort1 s)); simpl;
        now rewrite <- !app_assoc. }
    repeat split; try assumption; rewrite Hs3; apply settle_all_lookup;
      try assumption; rewrite elem_of_app, !elem_of_cons; auto.
Qed.

Lemma C4_witness :
  one_at_a_time [EPortMessage (VNumber 1); ERecv; EPortMessage (VNumber 2);
                 EPortDispatch; ERecv; EPortDispatch; ERecv]
    (first_handle (job_sends [VNumber 1; VNumber 2])) = true ∧
  recvs (run [EPortMessage (VNumber 1); ERecv; EPortMessage (VNumber 2);
              EPortDispatch; ERecv; EPortDispatch; ERecv]
           (first_handle (job_sends [VNumber 1; VNumber 2]))) =
    [Resolved (VNumber 1); Resolved (VNumber 2); Pending].
Proof.
  split; [reflexivity|].
  pose proof (C4_recv_one_call_at_a_time (job_sends [VNumber 1; VNumber 2]) 1
                [EPortMessage (VNumber 1); ERecv; EPortMessage (VNumber 2);
                 EPortDispatch; ERecv; EPortDispatch; ERecv] eq_refl) as [H _].
  destruct H as (ds & Hr & _ & Hq). reflexivity.
Defined.


(** * Further properties of the handle *)

(** ** Worker errors *)

Section WorkerErrors.




End WorkerErrors.



(** ** Terminal and running handles *)

(** X2.  Once [completed] is set, no event other than a call of
    [interrupt] assigns a variable of the handle or runs any part of the
    teardown again: completion messages, worker errors and timers are
    ignored, so the stored outcome is the one every later [join] gets.
    No event at all, [interrupt] included, changes a promise that [join]
    has already returned. *)
Theorem X2_terminal_outcome_is_stable
    (s : state) (evs : list event) (t : option Z) :
  completed (vars s) = true →
  forallb (λ e, negb (is_interrupt e)) evs = true →
  vars (run evs s) = vars s ∧
  teardown_calls (run evs s) = teardown_calls s ∧
  joins (fst (join t (run evs s))) !! snd (join t (run evs s)) =
    Some (stored_outcome s) ∧
  (∀ evs' p r, joins s !! p = Some r → joins (run evs' s) !! p = Some r).
Proof.
  intros Hc Hevs.
  destruct (completed_run_frame evs s Hc Hevs) as [Hv Htd].
  destruct (completed_run evs s Hc) as [Hc' _].
  split; [exact Hv|]. split; [exact Htd|]. split.
  - rewrite join_completed by exact Hc'. simpl.
    unfold stored_outcome. rewrite Hv. now apply list_lookup_middle.
  - intros evs' p r Hp. destruct (completed_run evs' s Hc) as [_ [l ->]].
    now apply lookup_app_l_Some.
Qed.

Lemma X2_witness :
  joins (run [EJoin (Some 10%Z); ETimerFire 0; ECompletionMessage success_data;
              EWorkerError "late"; EJoin None] handle0) =
    [Rejected "Thread join timed out after 10ms";
     Rejected "Thread join timed out after 10ms"].
Proof.
  pose proof (X2_terminal_outcome_is_stable
                (run [EJoin (Some 10%Z); ETimerFire 0] handle0)
                [ECompletionMessage success_data; EWorkerError "late"] None
                eq_refl eq_refl) as (_ & _ & H & _).
  reflexivity.
Defined.

(** X3.  As long as [completed] is not set, whatever has happened to the
    handle since [spawn]: it was not interrupted, no error is stored, no
    promise returned by [join] is settled, both listeners are attached
    and no part of the teardown has run. *)
Theorem X3_running_handle_is_untouched (f : job) (c : Z) (evs : list event) :
  let s := run evs (fst (spawn f c)) in
  completed (vars s) = false →
  interrupted (vars s) = false ∧
  completionError (vars s) = None ∧
  Forall (λ p, p = Pending) (joins s) ∧
  error_listener (host s) = true ∧ completion_listener (host s) = true ∧
  teardown_calls s = (0, 0, 0).
Proof.
  intros s Hc.
  assert (Hr : reachable s) by apply reachable_run, reachable_spawn.
  pose proof (reachable_inv s Hr) as Hinv.
  split; [now apply reachable_running_not_interrupted|].
  split; [now apply (inv_no_error s Hinv)|].
  split; [now apply (inv_pending s Hinv)|].
  split; [now apply (inv_error_listener s Hinv)|].
  split; [now apply (inv_completion_listener s Hinv)|].
  unfold teardown_calls.
  now rewrite (inv_terminate s Hinv Hc), (inv_close s Hinv Hc),
    (inv_revoke s Hinv Hc).
Qed.

Lemma X3_witness :
  joins (run [EJoin None; EPortMessage (VNumber 1); ERecv; EPortDispatch;
              EJoin (Some 5%Z)] (first_handle (job_sends [VNumber 1]))) =
    [Pending; Pending].
Proof.
  pose proof (X3_running_handle_is_untouched (job_sends [VNumber 1]) 1
                [EJoin None; EPortMessage (VNumber 1); ERecv; EPortDispatch;
                 EJoin (Some 5%Z)] eq_refl) as (_ & _ & H & _).
  reflexivity.
Defined.



(** X5.  Once [interrupt] has been called, whatever the handle's state
    was before and whatever happens afterwards, a [join] resolves with 1
    at once, with or without a timeout, and its promise keeps that
    value. *)
Theorem X5_join_after_interrupt_resolves_with_one
    (s : state) (mid evs : list event) (t : option Z) :
  let s1 := run mid (interrupt s) in
  joins (run evs (fst (join t s1))) !! snd (join t s1) =
    Some (Resolved (VNumber 1)).
Proof. apply join_after_interrupt. Qed.

(** X6.  A job that uses [transmit] only and throws an [Error] with a
    non-empty message: [join],
    called before the worker's posts arrive or after, is rejected with
    "Thread error: <message>", and the message port holds the payloads
    the job sent followed by the diagnostic [{error, stack}]. *)
Theorem X6_thrown_error_rejects_join
    (c : Z) (j : job) (e : JsError) (t : option Z) :
  finish j = Throws e → completions j = [] → message e ≠ EmptyString →
  joins (run (EJoin t :: worker_events j) (fst (spawn j c))) !! 0 =
    Some (Rejected ("Thread error: " +:+ message e)) ∧
  joins (run (worker_events j ++ [EJoin t]) (fst (spawn j c))) !! 0 =
    Some (Rejected ("Thread error: " +:+ message e)) ∧
  queue (messagePort1 (run (EJoin t :: worker_events j) (fst (spawn j c)))) =
    sends j ++ [VObject [("error", VString (message e));
                         ("stack", VString (stack e))]].
Proof. apply thrown_error_rejects_join. Qed.

Lemma X6_witness :
  joins (run (EJoin None ::
              worker_events {| body := [PortPost (VNumber 3)];
                               finish := Throws {| message := "boom";
                                                   stack := "at job" |} |})
           (first_handle {| body := [PortPost (VNumber 3)];
                            finish := Throws {| message := "boom";
                                                stack := "at job" |} |})) !! 0 =
    Some (Rejected "Thread error: boom").
Proof.
  pose proof (X6_thrown_error_rejects_join 1
                {| body := [PortPost (VNumber 3)];
                   finish := Throws {| message := "boom"; stack := "at job" |} |}
                {| message := "boom"; stack := "at job" |} None eq_refl eq_refl)
    as H.
  destruct H as (H & _); [discriminate|]. exact H.
Defined.

(** ** Timeouts *)

Section Timeouts.

(** The timer callback on a running handle stores its error. *)
Lemma timeoutCallback_stored timeout p s :
  completed (vars s) = false →
  let s' := timeoutCallback timeout p s in
  interrupted (vars s') = interrupted (vars s) ∧
  completionError (vars s') =
    Some ("Thread join timed out after " +:+ number_to_string timeout +:+ "ms").
Proof. intros Hc. unfold timeoutCallback. rewrite Hc. simpl. split; reflexivity. Qed.

(** Without a [join] that has a timeout no timer is ever armed, and
    without a completion message, a worker error or an [interrupt] the
    handle keeps running. *)
Lemma no_timer_step e s :
  is_timed_join e = false → is_terminating e = false →
  timers (host s) = ∅ → completed (vars s) = false →
  interrupted (vars s) = false →
  timers (host (step e s)) = ∅ ∧ completed (vars (step e s)) = false ∧
  interrupted (vars (step e s)) = false.
Proof.
  intros Hj Ht Htm Hc Hi. destruct e as [[timeout|]| | | | | | | |t];
    try discriminate; simpl.
  - rewrite join_running by assumption. simpl. auto.
  - auto.
  - auto.
  - auto.
  - unfold dispatch. split_matches; auto.
  - rewrite Htm, lookup_empty. auto.
Qed.

End Timeouts.

(** X7.  [join] without a timeout arms no timer and waits indefinitely:
    in a run with no [join] that has a timeout, no completion message, no
    worker error and no [interrupt], no timer exists (a timer event finds
    nothing to fire), the handle is still running and every promise
    returned by [join] is pending. *)
Theorem X7_join_without_timeout_waits (f : job) (c : Z) (evs : list event) :
  forallb (λ e, negb (is_timed_join e) && negb (is_terminating e)) evs = true →
  let s := run evs (fst (spawn f c)) in
  timers (host s) = ∅ ∧ completed (vars s) = false ∧
  Forall (λ p, p = Pending) (joins s).
Proof.
  intros Hevs s.
  assert (H : timers (host s) = ∅ ∧ completed (vars s) = false ∧
              interrupted (vars s) = false).
  { subst s. induction evs as [|e evs IH] using rev_ind.
    - repeat split.
    - rewrite forallb_app in Hevs. simpl in Hevs.
      apply andb_true_iff in Hevs as [Hevs He]. rewrite andb_true_r in He.
      apply andb_true_iff in He as [Hj Ht].
      apply negb_true_iff in Hj, Ht.
      destruct (IH Hevs) as (Htm & Hc & Hi).
      rewrite run_snoc. now apply no_timer_step. }
  destruct H as (Htm & Hc & _). split; [exact Htm|]. split; [exact Hc|].
  apply (inv_pending s); [|exact Hc].
  apply reachable_inv, reachable_run, reachable_spawn.
Qed.

Lemma X7_witness :
  joins (run [EJoin None; ETimerFire 0; EPortMessage (VNumber 1);
              ETimerFire 1; EJoin None]
           (first_handle {| body := [PortPost (VNumber 1)]; finish := Hangs |})) =
    [Pending; Pending].
Proof.
  pose proof (X7_join_without_timeout_waits
                {| body := [PortPost (VNumber 1)]; finish := Hangs |} 1
                [EJoin None; ETimerFire 0; EPortMessage (VNumber 1);
                 ETimerFire 1; EJoin None] eq_refl) as (_ & _ & H).
  reflexivity.
Defined.

(** X8.  After the timer of a [join] has fired on a running handle (only
    message traffic between the call and the timer), the handle stays
    timed out: whatever happens next short of [interrupt], every later
    [join], whatever its own timeout, is rejected at once with the error
    of the first, "Thread join timed out after <timeout>ms". *)
Theorem X8_timed_out_handle_rejects_later_joins
    (s : state) (timeout : Z) (evs later : list event) (t' : option Z) :
  reachable s → completed (vars s) = false →
  forallb message_event evs = true →
  forallb (λ e, negb (is_interrupt e)) later = true →
  let s1 := fst (join (Some timeout) s) in
  let s3 := step (ETimerFire (next_timer (host s))) (run evs s1) in
  let s4 := run later s3 in
  joins (fst (join t' s4)) !! snd (join t' s4) =
    Some (Rejected ("Thread join timed out after " +:+ number_to_string timeout +:+ "ms")).
Proof.
  intros Hr Hc Hevs Hlater s1 s3 s4.
  destruct (join_running_facts (Some timeout) s Hr Hc)
    as (Hr1 & Hc1 & _ & _ & _ & _ & _ & Htm1).
  fold s1 in Hr1, Hc1, Htm1.
  destruct (message_events_frame evs s1 Hevs) as (Hv2 & Hh2 & _).
  assert (Hc2 : completed (vars (run evs s1)) = false) by now rewrite Hv2.
  assert (Hi2 : interrupted (vars (run evs s1)) = false).
  { apply reachable_running_not_interrupted; [now apply reachable_run|exact Hc2]. }
  assert (Hs3 : s3 = timeoutCallback timeout (snd (join (Some timeout) s))
                       (clearTimeout (next_timer (host s)) (run evs s1))).
  { subst s3. simpl. rewrite Hh2, Htm1, lookup_insert_eq. reflexivity. }
  destruct (timeoutCallback_running timeout (snd (join (Some timeout) s))
              (clearTimeout (next_timer (host s)) (run evs s1)) Hc2)
    as (Hc3 & _).
  destruct (timeoutCallback_stored timeout (snd (join (Some timeout) s))
              (clearTimeout (next_timer (host s)) (run evs s1)) Hc2)
    as (Hi3 & He3).
  rewrite <- Hs3 in Hc3, Hi3, He3. simpl in Hi3.
  destruct (completed_run_frame later s3 Hc3 Hlater) as [Hv4 _].
  destruct (completed_run later s3 Hc3) as [Hc4 _].
  fold s4 in Hv4, Hc4.
  rewrite join_completed by exact Hc4. simpl.
  unfold stored_outcome. rewrite Hv4, Hi3, Hi2, He3.
  now apply list_lookup_middle.
Qed.

Lemma X8_witness :
  joins (run [EJoin (Some 500%Z); ERecv; ETimerFire 0;
              ECompletionMessage success_data; EJoin (Some 9000%Z)] handle0) =
    [Rejected "Thread join timed out after 500ms";
     Rejected "Thread join timed out after 500ms"].
Proof.
  pose proof (X8_timed_out_handle_rejects_later_joins handle0 500%Z [ERecv]
                [ECompletionMessage success_data] (Some 9000%Z)
                (reachable_spawn job_returns 1) eq_refl eq_refl eq_refl) as H.
  reflexivity.
Defined.

(** X9.  The timer of a [join] rejects the promise of that [join] only:
    it does not call [completionReject].  A second [join] registered on
    the running handle before the timer of the first fires is not
    settled when it fires, and by nothing that happens afterwards. *)
Theorem X9_timeout_settles_only_its_own_join
    (s : state) (timeout : Z) (t2 : option Z) (evs : list event) :
  reachable s → completed (vars s) = false →
  let s1 := fst (join (Some timeout) s) in
  let p1 := snd (join (Some timeout) s) in
  let s2 := fst (join t2 s1) in
  let p2 := snd (join t2 s1) in
  let s3 := step (ETimerFire (next_timer (host s))) s2 in
  completionReject (vars s2) = Some p2 ∧ p1 ≠ p2 ∧
  joins s3 !! p1 =
    Some (Rejected ("Thread join timed out after " +:+ number_to_string timeout +:+ "ms")) ∧
  joins s3 !! p2 = Some Pending ∧
  joins (run evs s3) !! p2 = Some Pending.
Proof.
  intros Hr Hc s1 p1 s2 p2 s3.
  destruct (join_running_facts (Some timeout) s Hr Hc)
    as (Hr1 & Hc1 & Hp1 & Hj1 & _ & _ & _ & Htm1).
  fold s1 p1 in Hr1, Hc1, Hp1, Hj1, Htm1.
  destruct (join_running_facts t2 s1 Hr1 Hc1)
    as (Hr2 & Hc2 & Hp2 & Hj2 & _ & Hrej2 & Htimer2).
  fold s2 p2 in Hr2, Hc2, Hp2, Hj2, Hrej2, Htimer2.
  assert (Hnext : next_timer (host s1) = S (next_timer (host s))).
  { subst s1. rewrite join_running;
      [reflexivity|now apply reachable_running_not_interrupted|exact Hc]. }
  assert (Htm2 : timers (host s2) !! next_timer (host s) = Some (timeout, p1)).
  { destruct t2 as [timeout2|]; destruct Htimer2 as [_ ->].
    - rewrite lookup_insert_ne by lia. rewrite Htm1. apply lookup_insert_eq.
    - rewrite Htm1. apply lookup_insert_eq. }
  assert (Hlen : p2 = S p1) by (rewrite Hp2, Hj1, length_app, Hp1; simpl; lia).
  assert (Hs3 : s3 = timeoutCallback timeout p1
                       (clearTimeout (next_timer (host s)) s2)).
  { subst s3. simpl. now rewrite Htm2. }
  destruct (timeoutCallback_running timeout p1
              (clearTimeout (next_timer (host s)) s2) Hc2) as (Hc3 & Hj3 & _).
  rewrite <- Hs3 in Hc3, Hj3. simpl in Hj3.
  assert (Hl1 : joins s2 !! p1 = Some Pending).
  { rewrite Hj2, Hj1, Hp1, <- app_assoc. now apply list_lookup_middle. }
  assert (Hl2 : joins s2 !! p2 = Some Pending).
  { rewrite Hj2, Hp2. now apply list_lookup_middle. }
  assert (Hl3 : joins s3 !! p2 = Some Pending).
  { rewrite Hj3, settle_other by lia. exact Hl2. }
  split; [exact Hrej2|]. split; [lia|]. split; [|split].
  - rewrite Hj3. now apply settle_pending.
  - exact Hl3.
  - destruct (completed_run evs s3 Hc3) as [_ [l ->]].
    now apply lookup_app_l_Some.
Qed.

Lemma X9_witness :
  joins (run [EJoin (Some 100%Z); EJoin None; ETimerFire 0;
              ECompletionMessage success_data] handle0) =
    [Rejected "Thread join timed out after 100ms"; Pending].
Proof.
  pose proof (X9_timeout_settles_only_its_own_join handle0 100%Z None
                [ECompletionMessage success_data]
                (reachable_spawn job_returns 1) eq_refl) as H.
  reflexivity.
Defined.

(** ** The message channel and the life cycle *)

Section Independence.

(** A life-cycle event leaves the message port, the [recv] promises and
    the callback invocations as they are. *)
Lemma lifecycle_event_channel e s :
  message_event e = false → channel_side (step e s) = channel_side s.
Proof.
  intros He. unfold channel_side.
  destruct e; try discriminate; simpl;
    unfold join, errorHandler, completionHandler, timeoutCallback, cleanup,
      resolve, reject; simpl; split_matches; reflexivity.
Qed.

(** What a message event does to the channel side depends on the channel
    side only. *)
Lemma message_event_channel e s s' :
  message_event e = true → channel_side s = channel_side s' →
  channel_side (step e s) = channel_side (step e s').
Proof.
  unfold channel_side. intros He Hs.
  destruct s, s'. simpl in Hs. injection Hs as -> -> ->.
  destruct e; try discriminate; simpl; unfold dispatch; simpl;
    split_matches; reflexivity.
Qed.

(** And what a life-cycle event does to the life-cycle side depends on
    the life-cycle side only. *)
Lemma lifecycle_event_lifecycle e s s' :
  message_event e = false → lifecycle_side s = lifecycle_side s' →
  lifecycle_side (step e s) = lifecycle_side (step e s').
Proof.
  unfold lifecycle_side. intros He Hs.
  destruct s, s'. simpl in Hs. injection Hs as -> -> ->.
  destruct e; try discriminate; simpl;
    unfold join, interrupt, errorHandler, completionHandler, timeoutCallback,
      cleanup, resolve, reject; simpl;
    split_matches; simplify_eq; first [reflexivity | congruence].
Qed.

Lemma message_event_lifecycle e s :
  message_event e = true → lifecycle_side (step e s) = lifecycle_side s.
Proof.
  intros He. destruct (message_event_frame e s He) as (Hv & Hh & Hj).
  unfold lifecycle_side. now rewrite Hv, Hh, Hj.
Qed.

Lemma channel_side_run evs s s' :
  channel_side s = channel_side s' →
  channel_side (run evs s) =
    channel_side (run (List.filter message_event evs) s').
Proof.
  revert s s'. induction evs as [|e evs IH]; intros s s' Hs; [exact Hs|].
  rewrite run_cons. cbn [List.filter]. destruct (message_event e) eqn:He.
  - rewrite run_cons. apply IH. now apply message_event_channel.
  - apply IH. now rewrite lifecycle_event_channel.
Qed.

Lemma lifecycle_side_run evs s s' :
  lifecycle_side s = lifecycle_side s' →
  lifecycle_side (run evs s) =
    lifecycle_side (run (List.filter (λ e, negb (message_event e)) evs) s').
Proof.
  revert s s'. induction evs as [|e evs IH]; intros s s' Hs; [exact Hs|].
  rewrite run_cons. cbn [List.filter].
  destruct (message_event e) eqn:He; cbn [negb].
  - apply IH. now rewrite message_event_lifecycle.
  - rewrite run_cons. apply IH. now apply lifecycle_event_lifecycle.
Qed.

End Independence.

(** X10.  The message channel and the life cycle of a handle do not
    influence each other.  After any run, the message port, the [recv]
    promises and the callback invocations are what the message events of
    the run alone ([recv], [onMessage], posts, dispatches) produce, and
    the variables, the worker, the completion port, the timers and the
    [join] promises are what the other events alone produce.  So a
    timeout, a completion, a worker error or [interrupt] never closes
    [messagePort1] or drops a queued message, and message traffic never
    settles a [join]. *)
Theorem X10_channel_and_lifecycle_are_independent (evs : list event) (s : state) :
  channel_side (run evs s) =
    channel_side (run (List.filter message_event evs) s) ∧
  lifecycle_side (run evs s) =
    lifecycle_side (run (List.filter (λ e, negb (message_event e)) evs) s).
Proof.
  split; [now apply channel_side_run | now apply lifecycle_side_run].
Qed.

(** ** Push mode *)

Section PushDelivery.

Lemma started_step e s :
  started (messagePort1 s) = true → started (messagePort1 (step e s)) = true.
Proof.
  intros Hs. destruct (message_event e) eqn:He.
  - destruct e; try discriminate; simpl; unfold dispatch;
      split_matches; first [assumption | reflexivity | congruence].
  - pose proof (lifecycle_event_channel e s He) as H.
    unfold channel_side in H. injection H as -> _ _. exact Hs.
Qed.

Lemma started_run evs s :
  started (messagePort1 s) = true → started (messagePort1 (run evs s)) = true.
Proof.
  revert s. induction evs as [|e evs IH]; intros s Hs; [exact Hs|].
  rewrite run_cons. apply IH, started_step, Hs.
Qed.

Lemma onmessage_kept cb evs s :
  onmessage (messagePort1 s) = Some cb →
  forallb (λ e, negb (is_onMessage e)) evs = true →
  onmessage (messagePort1 (run evs s)) = Some cb.
Proof.
  revert s. induction evs as [|e evs IH]; intros s Hcb Hevs; [exact Hcb|].
  simpl in Hevs. apply andb_true_iff in Hevs as [He Hevs].
  apply negb_true_iff in He. rewrite run_cons.
  apply IH; [|exact Hevs]. now apply (onmessage_step cb e s).
Qed.

(** Until [recv] or [onMessage] is called the port is not started: it
    only queues what the worker posts. *)
Lemma unstarted_step e s :
  is_recv e = false → is_onMessage e = false →
  started (messagePort1 s) = false →
  started (messagePort1 (step e s)) = false ∧
  calls (step e s) = calls s ∧
  queue (messagePort1 (step e s)) = queue (messagePort1 s) ++ sent [e].
Proof.
  intros Hr Ho Hs. destruct (message_event e) eqn:He.
  - destruct e; try discriminate; simpl.
    + repeat split; assumption.
    + rewrite Hs. repeat split; [exact Hs|]. now rewrite app_nil_r.
  - pose proof (lifecycle_event_channel e s He) as H.
    unfold channel_side in H. injection H as -> _ ->.
    repeat split; [exact Hs|].
    destruct e; try discriminate; simpl; now rewrite app_nil_r.
Qed.

Lemma unstarted_run evs s :
  forallb (λ e, negb (is_recv e) && negb (is_onMessage e)) evs = true →
  started (messagePort1 s) = false →
  started (messagePort1 (run evs s)) = false ∧
  calls (run evs s) = calls s ∧
  queue (messagePort1 (run evs s)) = queue (messagePort1 s) ++ sent evs.
Proof.
  revert s. induction evs as [|e evs IH]; intros s Hevs Hs.
  - simpl. now rewrite app_nil_r.
  - simpl in Hevs. apply andb_true_iff in Hevs as [He Hevs].
    apply andb_true_iff in He as [Hr Ho]. apply negb_true_iff in Hr, Ho.
    destruct (unstarted_step e s Hr Ho Hs) as (Hs' & Hc' & Hq').
    destruct (IH (step e s) Hevs Hs') as (Hs'' & Hc'' & Hq'').
    rewrite run_cons, sent_cons. repeat split; [exact Hs''|congruence|].
    now rewrite Hq'', Hq', app_assoc.
Qed.

(** As many dispatches as there are queued messages pass them all to the
    callback, oldest first. *)
Lemma drain_to_callback cb q :
  ∀ s, onmessage (messagePort1 s) = Some cb →
       started (messagePort1 s) = true → queue (messagePort1 s) = q →
       calls (run (repeat EPortDispatch (length q)) s) =
         calls s ++ map (pair cb) q ∧
       queue (messagePort1 (run (repeat EPortDispatch (length q)) s)) = [].
Proof.
  induction q as [|m q IH]; intros s Hcb Hs Hq.
  - simpl. now rewrite app_nil_r.
  - cbn [length repeat]. rewrite run_cons.
    assert (Hstep : onmessage (messagePort1 (step EPortDispatch s)) = Some cb ∧
                    started (messagePort1 (step EPortDispatch s)) = true ∧
                    queue (messagePort1 (step EPortDispatch s)) = q ∧
                    calls (step EPortDispatch s) = calls s ++ [(cb, m)]).
    { simpl. rewrite Hs, Hq. unfold dispatch. simpl. rewrite Hcb. simpl.
      repeat split; assumption. }
    destruct Hstep as (Hcb' & Hs' & Hq' & Hc').
    destruct (IH _ Hcb' Hs' Hq') as [Hcalls Hqueue].
    split; [|exact Hqueue]. rewrite Hcalls, Hc', <- app_assoc. reflexivity.
Qed.

End PushDelivery.

(** X11.  Push mode loses nothing: what the worker posts before
    [onMessage] is called (no [recv] either) is held in the port's queue;
    once [onMessage(cb)] is called, and as long as it is not called
    again, [cb] is invoked with the messages posted before and after the
    call, in posting order, each once, and with nothing else; the rest is
    still queued, and as many dispatches as messages are queued deliver
    all of them. *)
Theorem X11_onMessage_delivers_every_message_in_order
    (f : job) (c : Z) (pre evs : list event) (cb : callback) :
  forallb (λ e, negb (is_recv e) && negb (is_onMessage e)) pre = true →
  forallb (λ e, negb (is_onMessage e)) evs = true →
  let s := run (pre ++ EOnMessage cb :: evs) (fst (spawn f c)) in
  (∃ ds, calls s = map (pair cb) ds ∧
         ds ++ queue (messagePort1 s) = sent pre ++ sent evs) ∧
  let s' := run (repeat EPortDispatch (length (queue (messagePort1 s)))) s in
  calls s' = map (pair cb) (sent pre ++ sent evs) ∧
  queue (messagePort1 s') = [].
Proof.
  intros Hpre Hevs s.
  destruct (unstarted_run pre (fst (spawn f c)) Hpre eq_refl)
    as (_ & Hc0 & Hq0). simpl in Hc0, Hq0.
  set (s1 := onMessage cb (run pre (fst (spawn f c)))).
  assert (Hs : s = run evs s1) by (subst s s1; now rewrite run_app, run_cons).
  destruct (onmessage_run cb evs s1 eq_refl Hevs) as (ds & Hcalls & Hq).
  rewrite <- Hs in Hcalls, Hq. simpl in Hcalls, Hq.
  rewrite Hc0 in Hcalls. rewrite Hq0 in Hq. simpl in Hcalls.
  assert (Hex : calls s = map (pair cb) ds ∧
                ds ++ queue (messagePort1 s) = sent pre ++ sent evs)
    by (split; assumption).
  split; [exists ds; exact Hex|].
  assert (Hcb : onmessage (messagePort1 s) = Some cb).
  { rewrite Hs. now apply onmessage_kept. }
  assert (Hst : started (messagePort1 s) = true).
  { rewrite Hs. now apply started_run. }
  destruct (drain_to_callback cb (queue (messagePort1 s)) s Hcb Hst eq_refl)
    as [Hd Hempty].
  split; [|exact Hempty].
  rewrite Hd, Hcalls, <- map_app, Hq. reflexivity.
Qed.

Lemma X11_witness :
  calls (run [EPortMessage (VNumber 1); EJoin None; EPortMessage (VNumber 2);
              EPortDispatch; EOnMessage 4; EPortDispatch;
              EPortMessage (VNumber 3); EPortDispatch; EPortDispatch]
           (first_handle (job_sends [VNumber 1; VNumber 2; VNumber 3]))) =
    [(4, VNumber 1); (4, VNumber 2); (4, VNumber 3)].
Proof.
  pose proof (X11_onMessage_delivers_every_message_in_order
                (job_sends [VNumber 1; VNumber 2; VNumber 3]) 1
                [EPortMessage (VNumber 1); EJoin None; EPortMessage (VNumber 2);
                 EPortDispatch]
                [EPortDispatch; EPortMessage (VNumber 3); EPortDispatch;
                 EPortDispatch] 4 eq_refl eq_refl) as H.
  reflexivity.
Defined.

(** X12.  When both [onMessage] and [recv] are attached to a handle, in
    either order, one arriving message goes to both: the callback is
    invoked with it and the pending [recv] resolves with it. *)
Theorem X12_message_reaches_callback_and_pending_recv
    (s : state) (cb : callback) (m : value) :
  queue (messagePort1 s) = [] →
  (let s1 := fst (recv (onMessage cb s)) in
   let p := snd (recv (onMessage cb s)) in
   let s2 := run [EPortMessage m; EPortDispatch] s1 in
   calls s2 = calls s ++ [(cb, m)] ∧ recvs s2 !! p = Some (Resolved m)) ∧
  (let s1 := onMessage cb (fst (recv s)) in
   let p := snd (recv s) in
   let s2 := run [EPortMessage m; EPortDispatch] s1 in
   calls s2 = calls s ++ [(cb, m)] ∧ recvs s2 !! p = Some (Resolved m)).
Proof.
  intros Hq. split; intros s1 p s2; subst s2 s1 p; unfold run; simpl;
    rewrite Hq; simpl; unfold dispatch; simpl;
    (split; [reflexivity|]);
    (apply settle_all_lookup;
     [rewrite elem_of_app, elem_of_cons; auto
     |now apply list_lookup_middle]).
Qed.

Lemma X12_witness :
  calls (run [EOnMessage 3; ERecv; EPortMessage (VNumber 8); EPortDispatch]
           (first_handle (job_sends [VNumber 8]))) = [(3, VNumber 8)] ∧
  recvs (run [EOnMessage 3; ERecv; EPortMessage (VNumber 8); EPortDispatch]
           (first_handle (job_sends [VNumber 8]))) = [Resolved (VNumber 8)].
Proof.
  pose proof (X12_message_reaches_callback_and_pending_recv
                (first_handle (job_sends [VNumber 8])) 3 (VNumber 8) eq_refl)
    as [H _].
  split; reflexivity.
Defined.


(** ** What the promises can hold *)

Section PromiseContents.

Lemma settle_all_cases m hs ps p r :
  foldr (λ h ps, settle h (Resolved m) ps) ps hs !! p = Some r →
  r = Resolved m ∨ ps !! p = Some r.
Proof.
  induction hs as [|h hs IH]; simpl; [now right|].
  rewrite settle_lookup. destruct (decide (h = p)) as [_|_]; [|exact IH].
  destruct (foldr _ ps hs !! p) as [[| v | e]|] eqn:Hp;
    intros [= <-]; auto.
Qed.

Lemma recv_inv_step e s posted :
  recv_inv s posted → recv_inv (step e s) (posted ++ sent [e]).
Proof.
  intros (Hrej & Hres & Hq). destruct (message_event e) eqn:He.
  - destruct e; try discriminate; simpl sent; rewrite ?app_nil_r.
    + repeat split; simpl.
      * intros p e Hp. apply lookup_app_Some in Hp as [Hp | [_ Hp]].
        -- now apply (Hrej p e).
        -- apply list_lookup_singleton_Some in Hp as [_ Hp]. discriminate.
      * intros p v Hp. apply lookup_app_Some in Hp as [Hp | [_ Hp]].
        -- now apply (Hres p).
        -- apply list_lookup_singleton_Some in Hp as [_ Hp]. discriminate.
      * exact Hq.
    + repeat split; assumption.
    + repeat split; simpl.
      * exact Hrej.
      * intros p v Hp. apply elem_of_app. left. now apply (Hres p).
      * intros v Hv. apply elem_of_app in Hv as [Hv | Hv];
          apply elem_of_app; [left; now apply Hq | now right].
    + simpl. destruct (started (messagePort1 s)); [|repeat split; assumption].
      destruct (queue (messagePort1 s)) as [|m q] eqn:Hqs;
        [repeat split; try assumption; now rewrite Hqs|].
      assert (Hm : m ∈ posted) by (apply Hq; left).
      unfold dispatch.
      assert (Hgoal : ∀ cl,
        recv_inv
          (with_recvs
             (λ ps, foldr (λ p ps, settle p (Resolved m) ps) ps
                      (listeners (messagePort1 s)))
             (messagePort1_set_listeners []
                (with_calls cl (messagePort1_set_queue q s)))) posted).
      { intros cl. repeat split; simpl.
        - intros p e Hp. apply settle_all_cases in Hp as [Hp | Hp];
            [discriminate | now apply (Hrej p e)].
        - intros p v Hp. apply settle_all_cases in Hp as [[= ->] | Hp];
            [exact Hm | now apply (Hres p)].
        - intros v Hv. apply Hq. now right. }
      simpl. destruct (onmessage (messagePort1 s)) as [cb|].
      * exact (Hgoal (λ l, l ++ [(cb, m)])).
      * exact (Hgoal (λ l, l)).
  - pose proof (lifecycle_event_channel e s He) as H.
    unfold channel_side in H. injection H as Hp Hr _.
    assert (Hs : sent [e] = []) by (destruct e; try discriminate; reflexivity).
    rewrite Hs, app_nil_r. unfold recv_inv. rewrite Hp, Hr.
    repeat split; assumption.
Qed.

Lemma recv_inv_run evs s posted :
  recv_inv s posted → recv_inv (run evs s) (posted ++ sent evs).
Proof.
  revert s posted. induction evs as [|e evs IH]; intros s posted Hinv.
  - simpl. now rewrite app_nil_r.
  - rewrite run_cons, sent_cons, app_assoc. apply IH. now apply recv_inv_step.
Qed.

Lemma known_error_snoc (r : promise) (ps : list promise) :
  (∀ e, r = Rejected e → known_error e) →
  (∀ p e, ps !! p = Some (Rejected e) → known_error e) →
  ∀ p e, (ps ++ [r]) !! p = Some (Rejected e) → known_error e.
Proof.
  intros Hr Hps p e Hp. apply lookup_app_Some in Hp as [Hp | [_ Hp]].
  - now apply (Hps p).
  - apply list_lookup_singleton_Some in Hp as [_ Hp]. now apply Hr.
Qed.

Lemma known_error_settle q (r : promise) (ps : list promise) :
  (∀ e, r = Rejected e → known_error e) →
  (∀ p e, ps !! p = Some (Rejected e) → known_error e) →
  ∀ p e, settle q r ps !! p = Some (Rejected e) → known_error e.
Proof.
  intros Hr Hps p e. rewrite settle_lookup.
  destruct (decide (q = p)) as [_|_]; [|apply Hps].
  destruct (ps !! p) as [[| v | e']|] eqn:Hp; intros [= H]; auto.
  subst e'. now apply (Hps p).
Qed.

Lemma errors_inv_step e s : errors_inv s → errors_inv (step e s).
Proof.
  intros [Herr Hjoins].
  assert (Htimeout : ∀ timeout : Z,
            known_error ("Thread join timed out after " +:+ number_to_string timeout +:+ "ms"))
    by (intros timeout; left; now exists timeout).
  assert (Hthread : ∀ v, known_error ("Thread error: " +:+ to_string v))
    by (intros v; right; left; now exists v).
  assert (Hworker : ∀ m, known_error ("Worker error: " +:+ m))
    by (intros m; right; right; now exists m).
  destruct (message_event e) eqn:He.
  - destruct (message_event_frame e s He) as (Hv & _ & Hj).
    unfold errors_inv. now rewrite Hv, Hj.
  - destruct e; try discriminate; simpl;
      unfold join, interrupt, errorHandler, completionHandler, timeoutCallback,
        cleanup, resolve, reject; simpl; split_matches;
      (split; simpl;
       [ intros e0 He0;
         first [ now apply Herr | apply Herr; congruence
               | injection He0 as <-; auto ]
       | repeat first
           [ exact Hjoins
           | apply known_error_settle; [intros e0 [= <-]; now auto|]
           | apply known_error_settle;
               [intros e0 [= <-]; apply Herr; congruence|]
           | apply known_error_settle; [discriminate|]
           | apply known_error_snoc; [discriminate|] ] ]).
Qed.

Lemma errors_inv_run evs s : errors_inv s → errors_inv (run evs s).
Proof.
  revert s. induction evs as [|e evs IH]; intros s Hs; [exact Hs|].
  rewrite run_cons. apply IH, errors_inv_step, Hs.
Qed.

End PromiseContents.

(** X13.  [recv] never fails and never invents a message: after any run
    of a handle -- timeouts, worker errors and [interrupt] included -- a
    promise returned by [recv] is not rejected, and if it is resolved its
    value is one of the messages the worker posted during the run. *)
Theorem X13_recv_never_rejects_and_yields_posted_messages
    (f : job) (c : Z) (evs : list event) (p : nat) :
  let s := run evs (fst (spawn f c)) in
  (∀ e, recvs s !! p ≠ Some (Rejected e)) ∧
  (∀ v, recvs s !! p = Some (Resolved v) → v ∈ sent evs).
Proof.
  intros s.
  assert (H0 : recv_inv (fst (spawn f c)) []).
  { repeat split; simpl.
    - intros q e H. discriminate.
    - intros q v H. discriminate.
    - intros v H. now apply elem_of_nil in H. }
  destruct (recv_inv_run evs (fst (spawn f c)) [] H0) as (Hrej & Hres & _).
  split; [intros e; apply Hrej | intros v; apply Hres].
Qed.

(** X14.  [join] fails in three ways only: after any run of a handle,
    the error of a rejected promise returned by [join] is
    "Thread join timed out after <timeout>ms" for some timeout,
    "Thread error: <error>" for the [error] of some completion message,
    or "Worker error: <message>" for some worker error event. *)
Theorem X14_join_rejects_with_one_of_three_errors
    (f : job) (c : Z) (evs : list event) (p : nat) (e : string) :
  joins (run evs (fst (spawn f c))) !! p = Some (Rejected e) →
  known_error e.
Proof.
  assert (H0 : errors_inv (fst (spawn f c))).
  { split; simpl; intros; discriminate. }
  destruct (errors_inv_run evs (fst (spawn f c)) H0) as [_ H]. apply H.
Qed.

Lemma X14_witness :
  known_error "Worker error: out of memory".
Proof.
  apply (X14_join_rejects_with_one_of_three_errors job_returns 1
           [EJoin None; EWorkerError "out of memory"] 0).
  reflexivity.
Defined.

(** ** A whole run *)

Section WholeRun.

Lemma recv_each_are_message_events ms :
  forallb message_event (recv_each ms) = true.
Proof. induction ms; simpl; auto. Qed.

(** [recv] followed by a dispatch, once per queued message, resolves the
    new promises with the queue's messages, oldest first, and empties
    the queue. *)
Lemma recv_each_drains q :
  ∀ s, queue (messagePort1 s) = q → listeners (messagePort1 s) = [] →
       recvs (run (recv_each q) s) = recvs s ++ map Resolved q ∧
       queue (messagePort1 (run (recv_each q) s)) = [] ∧
       listeners (messagePort1 (run (recv_each q) s)) = [].
Proof.
  induction q as [|m q IH]; intros s Hq Hl.
  - simpl. now rewrite app_nil_r.
  - cbn [recv_each flat_map app]. rewrite !run_cons.
    set (s2 := step EPortDispatch (step ERecv s)).
    assert (Hs2 : queue (messagePort1 s2) = q ∧
                  listeners (messagePort1 s2) = [] ∧
                  recvs s2 = recvs s ++ [Resolved m]).
    { subst s2. simpl. rewrite Hq. unfold dispatch. simpl.
      destruct (onmessage (messagePort1 s)); simpl; rewrite Hl; simpl;
        (repeat split; now apply settle_new). }
    destruct Hs2 as (Hq2 & Hl2 & Hr2).
    destruct (IH s2 Hq2 Hl2) as (Hr & Hq' & Hl').
    fold (recv_each q). repeat split; try assumption.
    rewrite Hr, Hr2, <- app_assoc. reflexivity.
Qed.

Lemma port_messages_channel l s :
  queue (messagePort1 (run (map EPortMessage l) s)) = queue (messagePort1 s) ++ l ∧
  listeners (messagePort1 (run (map EPortMessage l) s)) =
    listeners (messagePort1 s) ∧
  recvs (run (map EPortMessage l) s) = recvs s.
Proof.
  rewrite port_messages_queue. simpl. repeat split.
  revert s. induction l as [|m l IH]; intros s; [reflexivity|].
  rewrite map_cons, run_cons, IH. reflexivity.
Qed.

Lemma channel_side_eq s s' :
  channel_side s = channel_side s' →
  messagePort1 s = messagePort1 s' ∧ recvs s = recvs s' ∧ calls s = calls s'.
Proof. unfold channel_side. intros [= -> -> ->]. repeat split. Qed.

End WholeRun.

(** X15.  A job that sends [m1 .. mk] and returns, joined only after
    everything it posted has arrived, and read only after that: the
    messages were held by the port although nothing was attached to it,
    so [k] calls of [recv], each followed by a dispatch, resolve with
    [m1 .. mk] in order and leave the queue empty, and [join], called
    last, resolves with 0; [join] called first gives the same. *)
Theorem X15_messages_wait_for_recv_and_join_resolves
    (ms : list value) (c : Z) (t : option Z) :
  let f := job_sends ms in
  (let s := run (worker_events f ++ recv_each ms ++ [EJoin t]) (fst (spawn f c)) in
   recvs s = map Resolved ms ∧ queue (messagePort1 s) = [] ∧
   joins s = [Resolved (VNumber 0)]) ∧
  (let s := run (EJoin t :: worker_events f ++ recv_each ms) (fst (spawn f c)) in
   recvs s = map Resolved ms ∧ queue (messagePort1 s) = [] ∧
   joins s = [Resolved (VNumber 0)]).
Proof.
  intros f.
  assert (Hchannel : ∀ pre post s,
            forallb (λ e, negb (message_event e)) pre = true →
            forallb (λ e, negb (message_event e)) post = true →
            s = run (pre ++ worker_events f ++ recv_each ms ++ post)
                  (fst (spawn f c)) →
            recvs s = map Resolved ms ∧ queue (messagePort1 s) = []).
  { intros pre post s Hpre Hpost ->.
    assert (Hfilter : List.filter message_event
                        (pre ++ worker_events f ++ recv_each ms ++ post) =
                      map EPortMessage ms ++ recv_each ms).
    { rewrite !List.filter_app.
      assert (Hnone : ∀ l, forallb (λ e, negb (message_event e)) l = true →
                           List.filter message_event l = []).
      { induction l as [|e l IH]; simpl; [reflexivity|].
        intros Hl. apply andb_true_iff in Hl as [He Hl].
        apply negb_true_iff in He. rewrite He. now apply IH. }
      assert (Hall : ∀ l, forallb message_event l = true →
                          List.filter message_event l = l).
      { induction l as [|e l IH]; simpl; [reflexivity|].
        intros Hl. apply andb_true_iff in Hl as [He Hl].
        rewrite He. now rewrite IH. }
      rewrite (Hnone pre Hpre), (Hnone post Hpost), app_nil_r.
      rewrite (Hall _ (recv_each_are_message_events ms)).
      rewrite (worker_events_job_sends ms : worker_events f = _), List.filter_app.
      rewrite (Hall _ (port_messages_are_message_events _)). simpl.
      now rewrite app_nil_r. }
    destruct (channel_side_eq _ _
                (channel_side_run
                   (pre ++ worker_events f ++ recv_each ms ++ post)
                   (fst (spawn f c)) (fst (spawn f c)) eq_refl))
      as (Hp' & Hr' & _).
    rewrite Hfilter, (run_app (map EPortMessage ms)) in Hp', Hr'.
    destruct (port_messages_channel ms (fst (spawn f c)))
      as (Hport & Hlist & Hrecvs).
    destruct (recv_each_drains ms (run (map EPortMessage ms) (fst (spawn f c))))
      as (Hr & Hq & _); [exact Hport|exact Hlist|].
    rewrite Hp', Hr', Hr, Hrecvs. split; [reflexivity|exact Hq]. }
  assert (Hmsgs : forallb message_event (map EPortMessage ms) = true)
    by apply port_messages_are_message_events.
  split; intros s.
  - destruct (Hchannel [] [EJoin t] s eq_refl eq_refl eq_refl) as [Hr Hq].
    split; [exact Hr|]. split; [exact Hq|].
    subst s. rewrite (worker_events_job_sends ms : worker_events f = _).
    rewrite !run_app, !run_cons, !run_nil.
    set (s1 := step (ECompletionMessage success_data)
                 (run (map EPortMessage ms) (fst (spawn f c)))).
    destruct (completion_then_join (fst (spawn f c)) t (map EPortMessage ms)
                success_data (reachable_spawn f c) eq_refl Hmsgs eq_refl)
      as [Hout _]. fold s1 in Hout.
    assert (Hc1 : completed (vars s1) = true).
    { subst s1. rewrite completion_message_running;
        [|apply reachable_run, reachable_spawn
         |now rewrite (proj1 (message_events_frame _ (fst (spawn f c)) Hmsgs))].
      apply completionHandler_teardown; [reflexivity|].
      now rewrite (proj1 (message_events_frame _ (fst (spawn f c)) Hmsgs)). }
    assert (Hj1 : joins s1 = []).
    { pose proof (completion_message_joins_length success_data
                    (run (map EPortMessage ms) (fst (spawn f c)))) as Hlen.
      fold s1 in Hlen.
      rewrite (proj2 (proj2 (message_events_frame _ (fst (spawn f c)) Hmsgs)))
        in Hlen. simpl in Hlen. now destruct (joins s1). }
    destruct (message_events_frame (recv_each ms) s1
                (recv_each_are_message_events ms)) as (Hv & _ & Hj).
    change (step (EJoin t) (run (recv_each ms) s1))
      with (fst (join t (run (recv_each ms) s1))).
    rewrite join_completed by now rewrite Hv. simpl.
    unfold stored_outcome. rewrite Hv, Hj, Hj1.
    unfold stored_outcome in Hout. now rewrite Hout.
  - destruct (Hchannel [EJoin t] [] s eq_refl eq_refl) as [Hr Hq].
    { subst s. simpl. now rewrite app_nil_r. }
    split; [exact Hr|]. split; [exact Hq|].
    subst s. rewrite run_cons, (worker_events_job_sends ms : worker_events f = _).
    rewrite !run_app, !run_cons, !run_nil.
    change (step (EJoin t) (fst (spawn f c)))
      with (fst (join t (fst (spawn f c)))).
    destruct (message_events_frame (recv_each ms)
                (step (ECompletionMessage success_data)
                   (run (map EPortMessage ms) (fst (join t (fst (spawn f c))))))
                (recv_each_are_message_events ms)) as (_ & _ & Hj).
    rewrite Hj.
    pose proof (join_then_completion (fst (spawn f c)) t (map EPortMessage ms)
                  success_data (reachable_spawn f c) eq_refl Hmsgs eq_refl) as H.
    rewrite join_returns_next_promise in H.
    pose proof (completion_message_joins_length success_data
                  (run (map EPortMessage ms) (fst (join t (fst (spawn f c))))))
      as Hlen.
    rewrite (proj2 (proj2 (message_events_frame _ _ Hmsgs))) in Hlen.
    assert (Hone : length (joins (fst (join t (fst (spawn f c))))) = 1).
    { rewrite join_running by reflexivity. now destruct t. }
    rewrite Hone in Hlen.
    destruct (joins (step (ECompletionMessage success_data)
                       (run (map EPortMessage ms) (fst (join t (fst (spawn f c)))))))
      as [|r [|r' l]]; try discriminate.
    injection H as ->. reflexivity.
Qed.

(** X16.  The id of a handle never changes: after any run, [id()] still
    returns the value [threadIdCounter] had when [spawn] was called, and
    the worker still runs the script built from the job. *)
Theorem X16_id_is_fixed_at_spawn (f : job) (c : Z) (evs : list event) :
  id (run evs (fst (spawn f c))) = c ∧
  script (host (run evs (fst (spawn f c)))) = workerCode f.
Proof.
  assert (Hstep : ∀ e s, workerThreadId (step e s) = workerThreadId s ∧
                         script (host (step e s)) = script (host s)).
  { intros e s. destruct e; simpl;
      unfold join, interrupt, dispatch, errorHandler, completionHandler,
        timeoutCallback, cleanup, resolve, reject; simpl;
      split_matches; split; reflexivity. }
  assert (Hrun : ∀ s, workerThreadId (run evs s) = workerThreadId s ∧
                      script (host (run evs s)) = script (host s)).
  { induction evs as [|e evs IH]; intros s; [split; reflexivity|].
    rewrite run_cons. destruct (IH (step e s)) as [-> ->]. apply Hstep. }
  destruct (Hrun (fst (spawn f c))) as [Hid Hsc].
  unfold id. rewrite Hid, Hsc. split; reflexivity.
Qed.

(** X17.  On a handle whose [completed] flag is set, [join] returns a
    promise that is settled at once with the stored outcome, and changes
    nothing else: the variables, the worker, the ports, the timers and the
    earlier promises are as before.  A second [join] yields the same
    outcome, and the first promise keeps it. *)
Theorem X17_join_on_terminal_handle_uses_stored_outcome
    (s : state) (t1 t2 : option Z) :
  completed (vars s) = true →
  let s1 := fst (join t1 s) in
  let p1 := snd (join t1 s) in
  let s2 := fst (join t2 s1) in
  let p2 := snd (join t2 s1) in
  stored_outcome s ≠ Pending ∧
  joins s1 !! p1 = Some (stored_outcome s) ∧
  joins s2 !! p2 = Some (stored_outcome s) ∧
  joins s2 !! p1 = Some (stored_outcome s) ∧
  vars s1 = vars s ∧ host s1 = host s ∧ messagePort1 s1 = messagePort1 s ∧
  vars s2 = vars s ∧ host s2 = host s ∧ messagePort1 s2 = messagePort1 s ∧
  teardown_calls s2 = teardown_calls s.
Proof.
  intros Hc s1 p1 s2 p2. subst s1 p1 s2 p2.
  rewrite !(join_completed t1 s Hc). simpl.
  rewrite join_completed by exact Hc. simpl.
  split; [apply stored_outcome_settled|].
  split; [now apply list_lookup_middle|].
  split; [now apply list_lookup_middle|].
  split; [|repeat split].
  rewrite lookup_app_l by (rewrite length_app; simpl; lia).
  now apply list_lookup_middle.
Qed.

Lemma X17_witness :
  completed (vars (run [ECompletionMessage success_data] handle0)) = true ∧
  joins (fst (join None (fst (join (Some 5%Z)
           (run [ECompletionMessage success_data] handle0))))) =
    [Resolved (VNumber 0); Resolved (VNumber 0)].
Proof.
  split; [reflexivity|].
  pose proof (X17_join_on_terminal_handle_uses_stored_outcome
                (run [ECompletionMessage success_data] handle0)
                (Some 5%Z) None eq_refl) as H.
  destruct H as (_ & _ & H2 & H1 & _). reflexivity.
Defined.


